(** * Ray/primitive intersection and CSG evaluation (geometry.cpp)

    A shallow embedding of [Plane::intersect], [Sphere::intersect],
    [Cube::intersectCubeSide], [Cube::intersect],
    [CsgOp::findAllIntersections] and [CsgOp::intersect].

    The C++ code computes on [double].  The embedding is written once, over
    an interface [Scalar] of the operations the code uses, and is run at two
    instances:
    - [binary64]: Rocq's primitive IEEE-754 binary64 floats, the arithmetic
      the compiled program performs (NaN, signed zeros, rounding);
    - [exact]: the real numbers, the arithmetic the comments of the code
      reason in.
    Statements that only follow the control flow are proved for every
    instance.  Statements about the order of distances, about NaN and
    about infinite values are proved at [binary64], from the specification
    of binary64 arithmetic ([SpecFloat] and [FloatAxioms]); none is stated
    at [exact] alone.  [exact] serves as a second instance on which the
    statements proved for every instance are run. *)

From Stdlib Require Import Floats Reals Lra ZArith List Bool Lia PeanoNat.
From Stdlib Require Import Permutation Sorted.
Import ListNotations.

Set Implicit Arguments.

(** ** Scalars: the operations on [double] used by geometry.cpp *)

Class Scalar (T : Type) : Type := {
  of_int : Z -> T;            (* conversion of an int constant or variable *)
  add : T -> T -> T;
  sub : T -> T -> T;
  mul : T -> T -> T;
  div : T -> T -> T;
  opp : T -> T;
  ltb : T -> T -> bool;       (* a < b *)
  sqrt : T -> T;
  fabs : T -> T;
  lit_1e_9 : T;               (* 1e-9 *)
  lit_1e_6 : T;               (* 1e-6 *)
  lit_1e99 : T;               (* 1e99 *)
  lit_0_5 : T;                (* 0.5  *)
  PI : T                      (* constants.h *)
}.

(** [atan2] and [asin] of <math.h>: not part of the repository, taken as
    parameters. *)
Class Libm (T : Type) : Type := {
  atan2 : T -> T -> T;
  asin : T -> T
}.

Declare Scope scalar_scope.
Delimit Scope scalar_scope with s.
Notation "a + b" := (add a b) : scalar_scope.
Notation "a - b" := (sub a b) : scalar_scope.
Notation "a * b" := (mul a b) : scalar_scope.
Notation "a / b" := (div a b) : scalar_scope.
Notation "- a" := (opp a) : scalar_scope.
Notation "a <? b" := (ltb a b) : scalar_scope.
Notation "a >? b" := (ltb b a) : scalar_scope.

(** Identity of a geometry object: the value of its [this] pointer. *)
Definition addr := N.

(** The three axis pairs of faces of a cube. *)
Inductive Axis : Type := AxisX | AxisY | AxisZ.

Definition is_side (sd : Z) : Prop := sd = (-1)%Z \/ sd = 1%Z.

Section Geometry.

Context {T : Type} {SC : Scalar T} {LM : Libm T}.
Local Open Scope scalar_scope.

(** ** Vectors and rays (vector.h) *)

Record Vector : Type := mkVector { x : T; y : T; z : T }.
Record Ray : Type := mkRay { start : Vector; dir : Vector }.

(** Modelled from the spec: vector.h is not among the sources.  Section 3
    lists addition, scalar scaling, dot product, squared length and
    normalization of a three-component value type. *)
Definition vadd (a b : Vector) : Vector :=
  mkVector (x a + x b) (y a + y b) (z a + z b).
Definition vsub (a b : Vector) : Vector :=
  mkVector (x a - x b) (y a - y b) (z a - z b).
Definition vscale (a : Vector) (m : T) : Vector :=
  mkVector (x a * m) (y a * m) (z a * m).
Definition dot (a b : Vector) : T := x a * x b + y a * y b + z a * z b.
Definition lengthSqr (a : Vector) : T := x a * x a + y a * y a + z a * z a.
Definition normalize (a : Vector) : Vector :=
  let multiplier := of_int 1 / sqrt (lengthSqr a) in
  mkVector (x a * multiplier) (y a * multiplier) (z a * multiplier).

(** Modelled from the spec: [project]/[unproject] of vector.h swap axis
    roles (section 4.3): [project v a b c] reads components [a], [b], [c]
    of [v] into slots 0, 1, 2 and [unproject] writes them back. *)
Definition comp (v : Vector) (i : nat) : T :=
  match i with O => x v | S O => y v | _ => z v end.
Definition set_comp (v : Vector) (i : nat) (t : T) : Vector :=
  match i with
  | O => mkVector t (y v) (z v)
  | S O => mkVector (x v) t (z v)
  | _ => mkVector (x v) (y v) t
  end.
Definition project (v : Vector) (a b c : nat) : Vector :=
  mkVector (comp v a) (comp v b) (comp v c).
Definition unproject (v : Vector) (a b c : nat) : Vector :=
  set_comp (set_comp (set_comp v a (x v)) b (y v)) c (z v).
Definition project_ray (r : Ray) (a b c : nat) : Ray :=
  mkRay (project (start r) a b c) (project (dir r) a b c).

(** ** The intersection record (geometry.h) *)

Record IntersectionData : Type := mkData {
  p : Vector;
  normal : Vector;
  dist : T;
  u : T;
  v : T;
  g : addr
}.

(** ** Plane::intersect *)

Definition plane_guard (py : T) (ray : Ray) : bool :=
  ((y (start ray) >? py) && (y (dir ray) >? - lit_1e_9))
  || ((y (start ray) <? py) && (y (dir ray) <? lit_1e_9)).

(** The divisor of line 39. *)
Definition plane_denominator (ray : Ray) : T :=
  let yDiff := y (dir ray) in
  - yDiff.

Definition plane_mult (py : T) (ray : Ray) : T :=
  let wantYDiff := y (start ray) - py in
  wantYDiff / plane_denominator ray.

Definition Plane_intersect (this : addr) (py : T) (ray : Ray)
    (data : IntersectionData) : bool * IntersectionData :=
  if plane_guard py ray then (false, data)
  else
    let mult := plane_mult py ray in
    if mult >? dist data then (false, data)
    else
      let pt := vadd (start ray) (vscale (dir ray) mult) in
      (true, mkData pt (mkVector (of_int 0) (of_int 1) (of_int 0)) mult
                    (x pt) (z pt) this).

(** ** Sphere::intersect *)

Definition sphere_Dscr (center : Vector) (R : T) (ray : Ray) : T :=
  let H := vsub (start ray) center in
  let A := lengthSqr (dir ray) in
  let B := of_int 2 * dot H (dir ray) in
  let C := lengthSqr H - R * R in
  B * B - of_int 4 * A * C.

Definition sphere_x1 (center : Vector) (R : T) (ray : Ray) : T :=
  let H := vsub (start ray) center in
  let A := lengthSqr (dir ray) in
  let B := of_int 2 * dot H (dir ray) in
  (- B + sqrt (sphere_Dscr center R ray)) / (of_int 2 * A).

Definition sphere_x2 (center : Vector) (R : T) (ray : Ray) : T :=
  let H := vsub (start ray) center in
  let A := lengthSqr (dir ray) in
  let B := of_int 2 * dot H (dir ray) in
  (- B - sqrt (sphere_Dscr center R ray)) / (of_int 2 * A).

(** Lines 63-69: the root that becomes the candidate distance, if any. *)
Definition sphere_sol (center : Vector) (R : T) (ray : Ray) : option T :=
  if sphere_Dscr center R ray <? of_int 0 then None
  else
    let sol := sphere_x2 center R ray in
    let sol := if sol <? of_int 0 then sphere_x1 center R ray else sol in
    if sol <? of_int 0 then None else Some sol.

(** The argument of [asin] on line 79. *)
Definition sphere_asin_arg (center : Vector) (R : T) (pt : Vector) : T :=
  (y pt - y center) / R.

Definition Sphere_intersect (this : addr) (center : Vector) (R : T)
    (ray : Ray) (info : IntersectionData) : bool * IntersectionData :=
  match sphere_sol center R ray with
  | None => (false, info)
  | Some sol =>
    if sol >? dist info then (false, info)
    else
      let pt := vadd (start ray) (vscale (dir ray) sol) in
      let n := normalize (vsub pt center) in
      let u' := (PI + atan2 (z pt - z center) (x pt - x center))
                / (of_int 2 * PI) in
      let v' := of_int 1
                - (PI / of_int 2 + asin (sphere_asin_arg center R pt)) / PI in
      (true, mkData pt n sol u' v' this)
  end.

(** ** Cube::intersectCubeSide *)

Definition cube_mult (halfSide : T) (ray : Ray) (center : Vector) (side : Z)
    : T :=
  let yDiff := y (dir ray) in
  let wantYDiff := y (start ray) - (y center + of_int side * halfSide) in
  wantYDiff / - yDiff.

Definition cube_out_of_face (halfSide : T) (center pt : Vector) : bool :=
  (x pt <? x center - halfSide) || (x pt >? x center + halfSide)
  || (z pt <? z center - halfSide) || (z pt >? z center + halfSide).

(** One iteration of the loop of lines 90-107, on the pair [(found, data)]. *)
Definition cube_face (halfSide : T) (ray : Ray) (center : Vector)
    (st : bool * IntersectionData) (side : Z) : bool * IntersectionData :=
  let data := snd st in
  let mult := cube_mult halfSide ray center side in
  if mult <? of_int 0 then st
  else if mult >? dist data then st
  else
    let pt := vadd (start ray) (vscale (dir ray) mult) in
    if cube_out_of_face halfSide center pt then st
    else
      (true, mkData pt (mkVector (of_int 0) (of_int side) (of_int 0)) mult
                    (x pt - x center) (z pt - z center) (g data)).

(** [for (int side = -1; side <= 1; side += 2)] *)
Definition cube_sides : list Z := [(-1)%Z; 1%Z].

Definition intersectCubeSide (side : T) (ray : Ray) (center : Vector)
    (data : IntersectionData) : bool * IntersectionData :=
  if fabs (y (dir ray)) <? lit_1e_9 then (false, data)
  else
    let halfSide := side * lit_0_5 in
    fold_left (cube_face halfSide ray center) cube_sides (false, data).

(** ** Cube::intersect *)

Definition set_normal_p (d : IntersectionData) (n pt : Vector)
    : IntersectionData :=
  mkData pt n (dist d) (u d) (v d) (g d).
Definition set_g (d : IntersectionData) (a : addr) : IntersectionData :=
  mkData (p d) (normal d) (dist d) (u d) (v d) a.
Definition set_dist (d : IntersectionData) (t : T) : IntersectionData :=
  mkData (p d) (normal d) t (u d) (v d) (g d).

(** The slab test of lines 117-121 and 124-128: the test in the frame
    [(a, b, c)], and the unprojection of what it wrote. *)
Definition cube_slab (side : T) (a b c : nat) (ray : Ray) (center : Vector)
    (st : bool * IntersectionData) : bool * IntersectionData :=
  let (hit, d) :=
    intersectCubeSide side (project_ray ray a b c) (project center a b c)
                      (snd st) in
  if hit then
    (true, set_normal_p d (unproject (normal d) a b c) (unproject (p d) a b c))
  else (fst st, d).

Definition Cube_intersect (this : addr) (center : Vector) (side : T)
    (ray : Ray) (data : IntersectionData) : bool * IntersectionData :=
  let st := intersectCubeSide side ray center data in
  let st := cube_slab side 1 0 2 ray center st in
  let st := cube_slab side 0 2 1 ray center st in
  if fst st then (true, set_g (snd st) this) else (false, snd st).

(** ** Geometry: the four variants behind [intersect] *)

Inductive Geometry : Type :=
| Plane (this : addr) (py : T)
| Sphere (this : addr) (center : Vector) (R : T)
| Cube (this : addr) (center : Vector) (side : T)
| CsgOp (this : addr) (left right : Geometry) (boolOp : bool -> bool -> bool).

Definition addr_of (geom : Geometry) : addr :=
  match geom with
  | Plane a _ | Sphere a _ _ | Cube a _ _ | CsgOp a _ _ _ => a
  end.

(** ** CsgOp::findAllIntersections *)

(** [IntersectionData temp;]: a record whose fields hold no meaningful
    value yet (null owner). *)
Definition fresh_data : IntersectionData :=
  let o := mkVector (of_int 0) (of_int 0) (of_int 0) in
  mkData o o (of_int 0) (of_int 0) (of_int 0) 0%N.

(** The loop [while (1)] runs for at most [fuel] iterations; [None] says
    that it did not leave the loop within them.  [isect] is
    [geom->intersect]. *)
Fixpoint findAllIntersections
    (isect : Ray -> IntersectionData -> option (bool * IntersectionData))
    (fuel : nat) (ray : Ray) (currentLength : T) (l : list IntersectionData)
    : option (list IntersectionData) :=
  match fuel with
  | O => None
  | S fuel' =>
    match isect ray (set_dist fresh_data lit_1e99) with
    | None => None
    | Some (false, _) => Some l
    | Some (true, temp) =>
      let temp := set_dist temp (dist temp + currentLength) in
      findAllIntersections isect fuel'
        (mkRay (vadd (p temp) (vscale (dir ray) lit_1e_6)) (dir ray))
        (dist temp) (l ++ [temp])
    end
  end.

(** ** CsgOp::intersect *)

(** [std::sort] with the comparison [a.dist < b.dist].  The order of records
    of equal [dist] is left open by [std::sort]; insertion keeps them in
    their order of arrival. *)
Fixpoint insert_by_dist (a : IntersectionData) (l : list IntersectionData)
    : list IntersectionData :=
  match l with
  | [] => [a]
  | b :: l' =>
    if dist a <? dist b then a :: b :: l' else b :: insert_by_dist a l'
  end.
Definition sort_by_dist (l : list IntersectionData) : list IntersectionData :=
  fold_left (fun acc a => insert_by_dist a acc) l [].

(** Lines 174-177: the flags after the hit [current]. *)
Definition flip (left : Geometry) (current : IntersectionData)
    (inL inR : bool) : bool * bool :=
  if N.eqb (g current) (addr_of left) then (negb inL, inR)
  else (inL, negb inR).

(** The loop of lines 170-186. *)
Fixpoint sweep (left : Geometry) (boolOp : bool -> bool -> bool)
    (data : IntersectionData) (all : list IntersectionData) (inL inR : bool)
    : bool * IntersectionData :=
  match all with
  | [] => (false, data)
  | current :: rest =>
    let (inL', inR') := flip left current inL inR in
    if boolOp inL' inR' then
      if dist current >? dist data then (false, data) else (true, current)
    else sweep left boolOp data rest inL' inR'
  end.

(** Lines 166-168. *)
Definition initial_inside (hits : list IntersectionData) : bool :=
  Nat.eqb (Nat.modulo (length hits) 2) 1.

Definition CsgOp_sweep (left : Geometry) (boolOp : bool -> bool -> bool)
    (L R : list IntersectionData) (data : IntersectionData)
    : bool * IntersectionData :=
  let all := sort_by_dist (L ++ R) in
  sweep left boolOp data all (initial_inside L) (initial_inside R).

(** [Geometry::intersect], dispatched on the variant. *)
Fixpoint intersect (fuel : nat) (geom : Geometry) (ray : Ray)
    (data : IntersectionData) {struct geom}
    : option (bool * IntersectionData) :=
  match geom with
  | Plane this py => Some (Plane_intersect this py ray data)
  | Sphere this center R => Some (Sphere_intersect this center R ray data)
  | Cube this center side => Some (Cube_intersect this center side ray data)
  | CsgOp this left_ right_ boolOp =>
    match findAllIntersections (intersect fuel left_) fuel ray (of_int 0) []
    with
    | None => None
    | Some L =>
      match
        findAllIntersections (intersect fuel right_) fuel ray (of_int 0) []
      with
      | None => None
      | Some R => Some (CsgOp_sweep left_ boolOp L R data)
      end
    end
  end.

(** The identities of the primitive leaves (Plane, Sphere, Cube) of a tree. *)
Fixpoint primitives (geom : Geometry) : list addr :=
  match geom with
  | Plane a _ | Sphere a _ _ | Cube a _ _ => [a]
  | CsgOp _ left_ right_ _ => primitives left_ ++ primitives right_
  end.

(** The probe record of [findAllIntersections]: [temp.dist = 1e99]. *)
Definition probe : IntersectionData := set_dist fresh_data lit_1e99.

(** ** Definitions the statements below are phrased with *)

Definition face_point (halfSide : T) (ray : Ray) (center : Vector) (side : Z)
    : Vector :=
  vadd (start ray) (vscale (dir ray) (cube_mult halfSide ray center side)).

(** A face is a candidate when it lies forward on the ray and the ray
    meets its plane within the face (lines 94 and 97-100). *)
Definition face_candidate (halfSide : T) (ray : Ray) (center : Vector)
    (side : Z) : bool :=
  negb (cube_mult halfSide ray center side <? of_int 0)
  && negb (cube_out_of_face halfSide center
             (face_point halfSide ray center side)).

(** The record of lines 101-105 for the face [side]. *)
Definition face_record (halfSide : T) (ray : Ray) (center : Vector)
    (side : Z) (owner : addr) : IntersectionData :=
  let pt := face_point halfSide ray center side in
  mkData pt (mkVector (of_int 0) (of_int side) (of_int 0))
         (cube_mult halfSide ray center side)
         (x pt - x center) (z pt - z center) owner.

(** The frame in which [Cube::intersect] runs the slab test of an axis
    pair (lines 114, 117 and 124), and the faces of the pair as the test
    sees them: whether face [sd] is a candidate, and at which ray
    parameter. *)
Definition frame_ray (ax : Axis) (ray : Ray) : Ray :=
  match ax with
  | AxisY => ray
  | AxisX => project_ray ray 1 0 2
  | AxisZ => project_ray ray 0 2 1
  end.
Definition frame_center (ax : Axis) (center : Vector) : Vector :=
  match ax with
  | AxisY => center
  | AxisX => project center 1 0 2
  | AxisZ => project center 0 2 1
  end.
Definition axis_candidate (center : Vector) (side : T) (ray : Ray)
    (ax : Axis) (sd : Z) : bool :=
  negb (fabs (y (dir (frame_ray ax ray))) <? lit_1e_9)
  && face_candidate (side * lit_0_5) (frame_ray ax ray)
                    (frame_center ax center) sd.
Definition axis_mult (center : Vector) (side : T) (ray : Ray)
    (ax : Axis) (sd : Z) : T :=
  cube_mult (side * lit_0_5) (frame_ray ax ray) (frame_center ax center) sd.

(** A distance that is not behind the origin of the ray: the test [t < 0]
    of lines 68, 69 and 94 is false. *)
Definition forward (t : T) : Prop := (t <? of_int 0) = false.

(** The quadratic |start + t dir - C|^2 = R^2 in the words of section 4.2:
    the coefficients A = dir.dir, B = 2 (start - C).dir and
    C' = |start - C|^2 - R^2, the discriminant B^2 - 4AC', the smaller root
    x2 = (-B - sqrt(discriminant)) / 2A and the larger root
    x1 = (-B + sqrt(discriminant)) / 2A. *)
Definition quadratic_A (ray : Ray) : T := dot (dir ray) (dir ray).
Definition quadratic_B (center : Vector) (ray : Ray) : T :=
  of_int 2 * dot (vsub (start ray) center) (dir ray).
Definition quadratic_C (center : Vector) (R : T) (ray : Ray) : T :=
  dot (vsub (start ray) center) (vsub (start ray) center) - R * R.
Definition quadratic_D (center : Vector) (R : T) (ray : Ray) : T :=
  quadratic_B center ray * quadratic_B center ray
  - of_int 4 * quadratic_A ray * quadratic_C center R ray.
Definition smaller_root (center : Vector) (R : T) (ray : Ray) : T :=
  (- quadratic_B center ray - sqrt (quadratic_D center R ray))
  / (of_int 2 * quadratic_A ray).
Definition larger_root (center : Vector) (R : T) (ray : Ray) : T :=
  (- quadratic_B center ray + sqrt (quadratic_D center R ray))
  / (of_int 2 * quadratic_A ray).

(** The candidate root in the words of section 4.2: no hit when the
    discriminant is negative; the smaller root when it is not negative
    (the test [< 0] is false of it); otherwise the larger root when that
    is not negative; otherwise no hit. *)
Definition sphere_root_spec (center : Vector) (R : T) (ray : Ray) : option T :=
  if quadratic_D center R ray <? of_int 0 then None
  else if negb (smaller_root center R ray <? of_int 0)
       then Some (smaller_root center R ray)
  else if negb (larger_root center R ray <? of_int 0)
       then Some (larger_root center R ray)
  else None.

(** The point of the ray at parameter [t]: [ray.start + ray.dir * t]. *)
Definition ray_at (ray : Ray) (t : T) : Vector :=
  vadd (start ray) (vscale (dir ray) t).

(** The unit vector of an axis, towards side [sd]: [Vector(0, side, 0)] of
    line 103, taken back from the frame of the slab test. *)
Definition axis_vector (ax : Axis) (sd : Z) : Vector :=
  match ax with
  | AxisX => mkVector (of_int sd) (of_int 0) (of_int 0)
  | AxisY => mkVector (of_int 0) (of_int sd) (of_int 0)
  | AxisZ => mkVector (of_int 0) (of_int 0) (of_int sd)
  end.

(** The offsets of a point from the centre along the two axes other than
    [ax], in the order in which lines 104-105 read them in the frame of the
    slab test. *)
Definition face_offsets (ax : Axis) (center pt : Vector) : T * T :=
  match ax with
  | AxisX => (y pt - y center, z pt - z center)
  | AxisY => (x pt - x center, z pt - z center)
  | AxisZ => (x pt - x center, y pt - y center)
  end.

(** The record that a hit on face [sd] of the axis pair [ax] leaves behind
    (lines 101-105, and 119-120 or 126-127). *)
Definition hit_of_face (center : Vector) (side : T) (ray : Ray) (ax : Axis)
    (sd : Z) (d : IntersectionData) : Prop :=
  is_side sd
  /\ axis_candidate center side ray ax sd = true
  /\ dist d = axis_mult center side ray ax sd
  /\ p d = ray_at ray (dist d)
  /\ normal d = axis_vector ax sd
  /\ (u d, v d) = face_offsets ax center (p d).

(** A primitive: a plane, a sphere or a cube. *)
Definition is_leaf (geom : Geometry) : Prop :=
  match geom with CsgOp _ _ _ _ => False | _ => True end.

(** The number of records of a list that line 174 attributes to the left
    child, and to the right child. *)
Definition left_hits (left : Geometry) (l : list IntersectionData) : nat :=
  length (filter (fun h => N.eqb (g h) (addr_of left)) l).
Definition right_hits (left : Geometry) (l : list IntersectionData) : nat :=
  length (filter (fun h => negb (N.eqb (g h) (addr_of left))) l).

End Geometry.

(** ** The two instances of the arithmetic *)

(** [double] as IEEE-754 binary64.  An [int] converts exactly. *)
Definition float_of_int (n : Z) : float :=
  match n with
  | Z0 => PrimFloat.zero
  | Zpos _ => PrimFloat.of_uint63 (Uint63.of_Z n)
  | Zneg q => PrimFloat.opp (PrimFloat.of_uint63 (Uint63.of_Z (Zpos q)))
  end.

#[export] Instance binary64 : Scalar float := {|
  of_int := float_of_int;
  add := PrimFloat.add;
  sub := PrimFloat.sub;
  mul := PrimFloat.mul;
  div := PrimFloat.div;
  opp := PrimFloat.opp;
  ltb := PrimFloat.ltb;
  sqrt := PrimFloat.sqrt;
  fabs := PrimFloat.abs;
  lit_1e_9 := 0x1.12e0be826d695p-30%float;
  lit_1e_6 := 0x1.0c6f7a0b5ed8dp-20%float;
  lit_1e99 := 0x1.d42aea2879f2ep+328%float;
  lit_0_5 := 0x1p-1%float;
  PI := 0x1.921fb54442d18p+1%float
|}.

(** [double] as a real number. *)
Definition Rltb (a b : R) : bool := if Rlt_dec a b then true else false.

#[export] Instance exact : Scalar R := {|
  of_int := IZR;
  add := Rplus;
  sub := Rminus;
  mul := Rmult;
  div := Rdiv;
  opp := Ropp;
  ltb := Rltb;
  sqrt := R_sqrt.sqrt;
  fabs := Rabs;
  lit_1e_9 := 1e-9%R;
  lit_1e_6 := 1e-6%R;
  lit_1e99 := 1e99%R;
  lit_0_5 := 0.5%R;
  PI := Rtrigo1.PI
|}.

(** The inverse trigonometric functions over the reals. *)
Definition R_atan2 (b a : R) : R :=
  if Rlt_dec 0 a then Ratan.atan (b / a)
  else if Rlt_dec a 0 then
    if Rlt_dec b 0 then (Ratan.atan (b / a) - Rtrigo1.PI)%R
    else (Ratan.atan (b / a) + Rtrigo1.PI)%R
  else if Rlt_dec 0 b then (Rtrigo1.PI / 2)%R
  else if Rlt_dec b 0 then (- (Rtrigo1.PI / 2))%R
  else 0%R.

#[export] Instance exact_libm : Libm R := {|
  atan2 := R_atan2;
  asin := Ratan.asin
|}.

(** ** Signs of binary64 values (on their specification [spec_float]) *)

Definition sign_of (f : spec_float) : option bool :=
  match f with
  | S754_zero s | S754_infinity s | S754_finite s _ _ => Some s
  | S754_nan => None
  end.

(** [f] has sign [s], or is NaN. *)
Definition sign_is (s : bool) (f : spec_float) : Prop :=
  match sign_of f with Some s' => s' = s | None => True end.

(** [f < 0]. *)
Definition below_zero (f : spec_float) : bool :=
  match f with
  | S754_infinity true | S754_finite true _ _ => true
  | _ => false
  end.

Definition zero_or_nan (f : spec_float) : Prop :=
  match f with S754_zero _ | S754_nan => True | _ => False end.

Definition not_nan (f : spec_float) : bool :=
  match f with S754_nan => false | _ => true end.

Definition finite_or_zero (f : spec_float) : bool :=
  match f with S754_zero _ | S754_finite _ _ _ => true | _ => false end.

Definition nonzero_finite (f : spec_float) : bool :=
  match f with S754_finite _ _ _ => true | _ => false end.

(** A bound above every finite binary64 value, and an integer that orders
    the values that are not NaN as [SFcompare] does. *)
Definition top : Z := (2 ^ 2200)%Z.

Definition ord (f : spec_float) : Z :=
  match f with
  | S754_zero _ | S754_nan => 0%Z
  | S754_infinity s => cond_Zopp s top
  | S754_finite s m e => cond_Zopp s (Z.pos m * 2 ^ (e + 1074))%Z
  end.

(** The mantissa of a finite value, signed and shifted to the exponent
    [ez]: the integer that [SFadd] and [SFsub] compute with. *)
Definition aligned (s : bool) (m : positive) (e ez : Z) : Z :=
  cond_Zopp s (Z.pos (fst (shl_align m e ez))).

(** The sign of a difference, by the comparison of its operands. *)
Definition SFsub_sign_statement (a b : spec_float) : Prop :=
  (SFltb b a = true -> sign_is false (SF64sub a b))
  /\ (SFltb a b = true -> sign_is true (SF64sub a b))
  /\ (SFltb b a = false -> SFltb a b = false -> zero_or_nan (SF64sub a b)).

(** ** Numbers among the binary64 values *)

(** Not NaN; neither NaN nor infinite. *)
Definition is_num (t : float) : Prop := not_nan (Prim2SF t) = true.
Definition finite64 (t : float) : Prop := finite_or_zero (Prim2SF t) = true.
Definition finite_vec (w : @Vector float) : Prop :=
  finite64 (x w) /\ finite64 (y w) /\ finite64 (z w).
Definition finite_ray (r : @Ray float) : Prop :=
  finite_vec (start r) /\ finite_vec (dir r).
Definition F2Z (t : float) : Z := ord (Prim2SF t).

(** What the statements on binary64 ask of a cube that is tested on its
    own: finite ray, centre and side, and a record whose [dist] is a
    number. *)
Definition cube_inputs_finite (geom : @Geometry float) (ray : @Ray float)
    (data : @IntersectionData float) : Prop :=
  match geom with
  | Cube _ center side =>
    finite_ray ray /\ finite_vec center /\ finite64 side
    /\ is_num (dist data)
  | _ => True
  end.

(** The counterpart of [slab_summary] in binary64, for records whose
    [dist] is a number: [ltb a b = false] reads "b is not greater than a". *)
Definition slab_summary64 (cand : Z -> bool) (mult : Z -> float)
    (st st' : bool * @IntersectionData float) : Prop :=
  is_num (dist (snd st'))
  /\ PrimFloat.ltb (dist (snd st)) (dist (snd st')) = false
  /\ ((st' = st
       /\ forall sd, is_side sd -> cand sd = true ->
                     PrimFloat.ltb (dist (snd st)) (mult sd) = true)
      \/ (fst st' = true
          /\ exists sd, is_side sd /\ cand sd = true
                        /\ dist (snd st') = mult sd))
  /\ (forall sd, is_side sd -> cand sd = true ->
                 PrimFloat.ltb (mult sd) (dist (snd st')) = false).

(** NaN, and the two zeros, among the binary64 values. *)
Definition is_nan64 (t : float) : Prop := Prim2SF t = S754_nan.
Definition is_zero (f : spec_float) : Prop :=
  match f with S754_zero _ => True | _ => False end.
Definition is_zero64 (t : float) : Prop := is_zero (Prim2SF t).

(** A ray that [Plane::intersect] cannot tell from one that lies in the
    plane: its origin is neither above nor below the plane and the y
    component of its direction is zero; or the y coordinate of its origin
    is NaN. *)
Definition grazes64 (py : float) (ray : @Ray float) : Prop :=
  is_nan64 (y (start ray))
  \/ (PrimFloat.ltb (y (start ray)) py = false
      /\ PrimFloat.ltb py (y (start ray)) = false
      /\ is_zero64 (y (dir ray))).

(** [c] comes before [d] in the order of distances: [d.dist] is NaN, or
    [c.dist <= d.dist] (which makes both numbers). *)
Definition dist_ascends (c d : @IntersectionData float) : Prop :=
  is_nan64 (dist d) \/ PrimFloat.leb (dist c) (dist d) = true.

(** [d.dist] is NaN or at least zero. *)
Definition dist_nan_or_nonneg (d : @IntersectionData float) : Prop :=
  is_nan64 (dist d) \/ PrimFloat.leb (float_of_int 0) (dist d) = true.

(** ** Concrete scenes *)

Module Scene64.
(** Scenes in binary64. *)

Definition vec64 (a b c : Z) : @Vector float :=
  mkVector (float_of_int a) (float_of_int b) (float_of_int c).

(** Kernel floats have no [atan2] and no [asin]; the scenes below take
    functions that return NaN in their place.  They enter the [u] and [v]
    of a sphere's record only. *)
Definition libm_unused : Libm float :=
  {| atan2 := fun _ _ => PrimFloat.nan; asin := fun _ => PrimFloat.nan |}.

(** A ray along +x that starts on the plane y = 0. *)
Definition ground : @Geometry float := Plane 1%N (float_of_int 0).
Definition grazing_ray : @Ray float := mkRay (vec64 0 0 0) (vec64 1 0 0).

(** A sphere of radius 0.7 at the origin, seen from straight above. *)
Definition radius : float := 0x1.6666666666666p-1%float.
Definition downward_ray : @Ray float := mkRay (vec64 0 3 0) (vec64 0 (-1) 0).

(** (A or B) and C: the left child of the root is itself a CSG node.  The
    ray meets cube A only; cubes B and C lie far to the side. *)
Definition cubeA : @Geometry float := Cube 3%N (vec64 0 0 0) (float_of_int 2).
Definition cubeB : @Geometry float := Cube 4%N (vec64 5 0 0) (float_of_int 2).
Definition cubeC : @Geometry float := Cube 5%N (vec64 10 0 0) (float_of_int 2).
Definition unionAB : @Geometry float := CsgOp 2%N cubeA cubeB orb.
Definition root : @Geometry float := CsgOp 1%N unionAB cubeC andb.
Definition view_ray : @Ray float := mkRay (vec64 0 0 5) (vec64 0 0 (-1)).

(** A ray with no direction. *)
Definition still_ray : @Ray float := mkRay (vec64 0 0 5) (vec64 0 0 0).

(** A level ray above the plane y = 0. *)
Definition level_ray : @Ray float := mkRay (vec64 0 3 0) (vec64 1 0 0).

(** A ray with infinite x components: from (-inf, 1.5, 0.5) along
    (+inf, -0.25, -0.25). *)
Definition wild_ray : @Ray float :=
  mkRay (mkVector neg_infinity 0x1.8p+0%float 0x1p-1%float)
        (mkVector infinity (-0x1p-2)%float (-0x1p-2)%float).

(** A ray towards the origin from (1e200, 0, 0). *)
Definition far_ray : @Ray float :=
  mkRay (mkVector 0x1.4e718d7d7625ap+664%float (float_of_int 0)
                  (float_of_int 0))
        (vec64 (-1) 0 0).

(** The record of the plane y = 0 on [downward_ray], at distance 3. *)
Definition hitG : @IntersectionData float :=
  mkData (vec64 0 0 0) (vec64 0 1 0) (float_of_int 3) (float_of_int 0)
         (float_of_int 0) 1%N.

(** The record of the face z = 1 of cube A, at distance 4. *)
Definition hitA : @IntersectionData float :=
  mkData (vec64 0 0 1) (vec64 0 0 1) (float_of_int 4) (float_of_int 0)
         (float_of_int 0) 3%N.

(** The hits of cube A enumerated along [view_ray]: the faces z = 1 and
    z = -1. *)
Definition hitsA : list (@IntersectionData float) :=
  Eval vm_compute in
    match
      findAllIntersections
        (@intersect float binary64 libm_unused 0 cubeA) 4 view_ray
        (float_of_int 0) []
    with
    | Some l => l
    | None => []
    end.

End Scene64.

Module SceneR.
(** Scenes in real arithmetic. *)

Definition vecR (a b c : Z) : @Vector R := mkVector (IZR a) (IZR b) (IZR c).
Definition upward_ray : @Ray R := mkRay (vecR 0 (-5) 0) (vecR 0 1 0).
Definition record_at (d : R) : @IntersectionData R := set_dist fresh_data d.

(** Planes above and below the origin of [upward_ray]. *)
Definition ceiling : @Geometry R := Plane 1%N 0%R.
Definition floor : @Geometry R := Plane 2%N (-9)%R.
Definition basement : @Geometry R := Plane 3%N (-12)%R.
Definition ceilings : @Geometry R := CsgOp 4%N ceiling (Plane 5%N 1%R) orb.
Definition floors : @Geometry R := CsgOp 6%N floor basement orb.

Definition unit_center : @Vector R := vecR 0 0 0.

(** A ray along +x that starts on the plane y = 0. *)
Definition grazing_rayR : @Ray R := mkRay (vecR 0 0 0) (vecR 1 0 0).

End SceneR.

(** * Properties that follow the control flow (every instance) *)

Section ControlFlow.

Context {T : Type} {SC : Scalar T} {LM : Libm T}.
Local Open Scope scalar_scope.

(** *** Plane and sphere *)

Lemma Plane_intersect_cases this py ray (data : IntersectionData) :
  Plane_intersect this py ray data = (false, data)
  \/ (plane_guard py ray = false
      /\ (plane_mult py ray >? dist data) = false
      /\ exists pt n a b,
           Plane_intersect this py ray data
           = (true, mkData pt n (plane_mult py ray) a b this)).
Proof.
  unfold Plane_intersect.
  destruct (plane_guard py ray); [now left|].
  destruct (plane_mult py ray >? dist data) eqn:E; [now left|].
  right. repeat split; eauto 10.
Qed.

Lemma Sphere_intersect_cases this center R ray (info : IntersectionData) :
  Sphere_intersect this center R ray info = (false, info)
  \/ exists sol,
       sphere_sol center R ray = Some sol
       /\ (sol >? dist info) = false
       /\ exists pt n a b,
            Sphere_intersect this center R ray info
            = (true, mkData pt n sol a b this).
Proof.
  unfold Sphere_intersect.
  destruct (sphere_sol center R ray) as [sol|]; [|now left].
  destruct (sol >? dist info) eqn:E; [now left|].
  right. exists sol. repeat split; eauto 10.
Qed.

(** *** One face, one slab, the cube *)

Lemma cube_face_eq halfSide ray center (st : bool * IntersectionData) side :
  cube_face halfSide ray center st side
  = if face_candidate halfSide ray center side
       && negb (cube_mult halfSide ray center side >? dist (snd st))
    then (true, face_record halfSide ray center side (g (snd st)))
    else st.
Proof.
  unfold cube_face, face_candidate, face_record, face_point.
  destruct (cube_mult halfSide ray center side <? of_int 0); [reflexivity|].
  destruct (cube_mult halfSide ray center side >? dist (snd st));
    [now rewrite andb_false_r|].
  destruct (cube_out_of_face _ _ _); reflexivity.
Qed.

(** The two iterations of the loop, spelled out. *)
Lemma intersectCubeSide_eq side ray center (data : IntersectionData) :
  intersectCubeSide side ray center data
  = if fabs (y (dir ray)) <? lit_1e_9 then (false, data)
    else
      let h := side * lit_0_5 in
      cube_face h ray center (cube_face h ray center (false, data) (-1)) 1.
Proof. reflexivity. Qed.

(** What a slab test leaves behind: nothing, or the record of an accepted
    face; the owner field is never touched. *)
Lemma intersectCubeSide_found_or_same side ray center
    (data : IntersectionData) :
  let r := intersectCubeSide side ray center data in
  g (snd r) = g data /\ (fst r = false -> snd r = data).
Proof.
  rewrite intersectCubeSide_eq.
  destruct (fabs (y (dir ray)) <? lit_1e_9); [cbn; auto|].
  cbv zeta. rewrite !cube_face_eq.
  repeat match goal with
         | |- context [if ?c then _ else _] => destruct c; cbn [fst snd g]
         end; cbn; split; auto; discriminate.
Qed.

Lemma cube_slab_found_or_same side a b c ray center (st : bool * IntersectionData) :
  let r := cube_slab side a b c ray center st in
  g (snd r) = g (snd st)
  /\ (fst r = false -> fst st = false /\ snd r = snd st).
Proof.
  unfold cube_slab.
  pose proof (intersectCubeSide_found_or_same side (project_ray ray a b c)
                (project center a b c) (snd st)) as H.
  destruct (intersectCubeSide _ _ _ _) as [hit d]. cbn in H.
  destruct H as [Hg Hs]. destruct hit; cbn.
  - split; auto. discriminate.
  - split; auto.
Qed.

Lemma Cube_intersect_cases this center side ray (data : IntersectionData) :
  Cube_intersect this center side ray data = (false, data)
  \/ exists d, Cube_intersect this center side ray data = (true, d)
              /\ g d = this.
Proof.
  unfold Cube_intersect.
  set (s1 := intersectCubeSide side ray center data).
  set (s2 := cube_slab side 1 0 2 ray center s1).
  set (s3 := cube_slab side 0 2 1 ray center s2).
  destruct (fst s3) eqn:E3.
  - right. eexists. split; [reflexivity|reflexivity].
  - left. f_equal.
    destruct (cube_slab_found_or_same side 0 2 1 ray center s2) as [_ H3].
    destruct (H3 E3) as [E2 H3']. fold s3 in H3'.
    destruct (cube_slab_found_or_same side 1 0 2 ray center s1) as [_ H2].
    destruct (H2 E2) as [E1 H2']. fold s2 in H2'.
    destruct (intersectCubeSide_found_or_same side ray center data)
      as [_ H1].
    fold s1 in H1. rewrite H3', H2'. auto.
Qed.

(** *** Sorting, the sweep, the enumeration *)

Lemma insert_by_dist_In (a h : IntersectionData) l :
  In h (insert_by_dist a l) <-> h = a \/ In h l.
Proof.
  induction l as [|b l IH]; cbn.
  - intuition congruence.
  - destruct (dist a <? dist b); cbn; [intuition congruence|].
    rewrite IH. intuition congruence.
Qed.

Lemma sort_by_dist_In (h : IntersectionData) l : In h (sort_by_dist l) <-> In h l.
Proof.
  unfold sort_by_dist.
  assert (G : forall acc, In h (fold_left (fun acc a => insert_by_dist a acc)
                                          l acc) <-> In h l \/ In h acc).
  { induction l as [|a l IH]; intros acc; cbn.
    - tauto.
    - rewrite IH, insert_by_dist_In. intuition congruence. }
  rewrite G. cbn [In]. tauto.
Qed.

(** The model of [std::sort] rearranges its input. *)
Lemma insert_by_dist_Permutation (a : IntersectionData) l :
  Permutation (insert_by_dist a l) (a :: l).
Proof.
  induction l as [|b l IH]; cbn; [reflexivity|].
  destruct (dist a <? dist b); [reflexivity|].
  rewrite IH. apply perm_swap.
Qed.

Lemma sort_by_dist_Permutation (l : list IntersectionData) :
  Permutation (sort_by_dist l) l.
Proof.
  unfold sort_by_dist.
  assert (G : forall acc,
             Permutation (fold_left (fun acc a => insert_by_dist a acc) l acc)
                         (l ++ acc)).
  { induction l as [|a l IH]; intros acc; cbn [fold_left app].
    - reflexivity.
    - rewrite IH, insert_by_dist_Permutation. symmetry.
      apply Permutation_middle. }
  rewrite G. now rewrite app_nil_r.
Qed.

Lemma sweep_cases left boolOp (data : IntersectionData) all inL inR :
  sweep left boolOp data all inL inR = (false, data)
  \/ exists h, sweep left boolOp data all inL inR = (true, h)
              /\ In h all /\ (dist h >? dist data) = false.
Proof.
  revert inL inR. induction all as [|current rest IH]; intros inL inR;
    cbn [sweep].
  - now left.
  - destruct (flip left current inL inR) as [inL' inR'].
    destruct (boolOp inL' inR').
    + destruct (dist current >? dist data) eqn:E; [now left|].
      right. exists current. cbn [In]. auto.
    + destruct (IH inL' inR') as [E|(h & E & Hin & Hd)]; [now left|].
      right. exists h. cbn [In]. auto.
Qed.

(** An invariant of the loop of [findAllIntersections] on the pair
    (currentLength, l). *)
Lemma findAllIntersections_invariant
    (I : T -> list IntersectionData -> Prop)
    (isect : Ray -> IntersectionData -> option (bool * IntersectionData)) :
  (forall ray cl l temp,
      I cl l -> isect ray probe = Some (true, temp) ->
      I (dist temp + cl) (l ++ [set_dist temp (dist temp + cl)])) ->
  forall fuel ray cl l L,
    I cl l -> findAllIntersections isect fuel ray cl l = Some L ->
    exists cl', I cl' L.
Proof.
  intros Hstep. induction fuel as [|fuel IH]; intros ray cl l L HI; cbn.
  - discriminate.
  - fold (@probe T SC).
    destruct (isect ray probe) as [[[] temp]|] eqn:E; try discriminate.
    + intros H. eapply IH; [|exact H]. cbn [set_dist dist].
      apply (Hstep ray); assumption.
    + intros H. injection H as <-. eauto.
Qed.

(** The first probe decides whether the list stays empty. *)
Lemma findAllIntersections_miss isect fuel ray cl (d : IntersectionData) :
  isect ray probe = Some (false, d) ->
  findAllIntersections isect (S fuel) ray cl [] = Some [].
Proof.
  intros E. cbn. fold (@probe T SC). rewrite E. reflexivity.
Qed.

Lemma findAllIntersections_owner (P : addr -> Prop)
    (isect : Ray -> IntersectionData -> option (bool * IntersectionData)) :
  (forall ray d d', isect ray d = Some (true, d') -> P (g d')) ->
  forall fuel ray cl L,
    findAllIntersections isect fuel ray cl [] = Some L ->
    Forall (fun d => P (g d)) L.
Proof.
  intros Hisect fuel ray cl L H.
  destruct (@findAllIntersections_invariant
              (fun _ l => Forall (fun d => P (g d)) l) isect) with
    (fuel := fuel) (ray := ray) (cl := cl) (l := @nil (@IntersectionData T)) (L := L)
    as [_ HL]; auto.
  intros ray' cl' l temp Hl E. apply Forall_app. split; [assumption|].
  constructor; [|constructor]. cbn. eapply Hisect; eassumption.
Qed.

Lemma parity_is_odd n : Nat.eqb (Nat.modulo n 2) 1 = Nat.odd n.
Proof.
  rewrite <- Nat.bit0_mod, Nat.bit0_odd. now destruct (Nat.odd n).
Qed.

(** *** The whole tree *)

Lemma intersect_false_same fuel geom :
  forall ray (data data' : IntersectionData),
    intersect fuel geom ray data = Some (false, data') -> data' = data.
Proof.
  destruct geom as [this py|this center R|this center side|this l r op];
    intros ray data data' H; cbn [intersect] in H.
  - destruct (Plane_intersect_cases this py ray data)
      as [E|(_ & _ & pt & n & a & b & E)]; congruence.
  - destruct (Sphere_intersect_cases this center R ray data)
      as [E|(sol & _ & _ & pt & n & a & b & E)]; congruence.
  - destruct (Cube_intersect_cases this center side ray data)
      as [E|(d & E & _)]; congruence.
  - destruct (findAllIntersections _ _ _ _ _) as [L|]; [|discriminate].
    destruct (findAllIntersections _ _ _ _ _) as [R|]; [|discriminate].
    unfold CsgOp_sweep in H.
    destruct (sweep_cases l op data (sort_by_dist (L ++ R))
                (initial_inside L) (initial_inside R))
      as [E|(h & E & _)]; congruence.
Qed.

Lemma intersect_owner fuel geom :
  forall ray (data data' : IntersectionData),
    intersect fuel geom ray data = Some (true, data') ->
    In (g data') (primitives geom).
Proof.
  induction geom as [this py|this center R|this center side
                    |this l IHl r IHr op];
    intros ray data data' H; cbn [intersect] in H; cbn [primitives].
  - destruct (Plane_intersect_cases this py ray data)
      as [E|(_ & _ & pt & n & a & b & E)]; [congruence|].
    rewrite E in H. injection H as <-. now left.
  - destruct (Sphere_intersect_cases this center R ray data)
      as [E|(sol & _ & _ & pt & n & a & b & E)]; [congruence|].
    rewrite E in H. injection H as <-. now left.
  - destruct (Cube_intersect_cases this center side ray data)
      as [E|(d & E & Hg)]; [congruence|].
    rewrite E in H. injection H as <-. now left.
  - destruct (findAllIntersections (intersect fuel l) _ _ _ _) as [L|] eqn:EL;
      [|discriminate].
    destruct (findAllIntersections (intersect fuel r) _ _ _ _) as [R|] eqn:ER;
      [|discriminate].
    unfold CsgOp_sweep in H.
    destruct (sweep_cases l op data (sort_by_dist (L ++ R))
                (initial_inside L) (initial_inside R))
      as [E|(h & E & Hin & _)]; [congruence|].
    rewrite E in H. injection H as <-.
    apply sort_by_dist_In, in_app_or in Hin. apply in_or_app.
    destruct Hin as [Hin|Hin]; [left|right].
    + eapply (findAllIntersections_owner (fun a => In a (primitives l)))
        in EL; [|exact IHl].
      rewrite Forall_forall in EL. now apply EL.
    + eapply (findAllIntersections_owner (fun a => In a (primitives r)))
        in ER; [|exact IHr].
      rewrite Forall_forall in ER. now apply ER.
Qed.

(** C3: when [intersect] returns false the record is returned as it was
    given, for every variant; and a CSG node both of whose children miss the
    ray on the first probe returns false with the record as given. *)
Theorem C3_no_hit_leaves_record_unmodified :
  (forall fuel geom ray (data data' : IntersectionData),
      intersect fuel geom ray data = Some (false, data') -> data' = data)
  /\ (forall fuel this left right boolOp ray (data dl dr : IntersectionData),
         intersect (S fuel) left ray probe = Some (false, dl) ->
         intersect (S fuel) right ray probe = Some (false, dr) ->
         intersect (S fuel) (CsgOp this left right boolOp) ray data
         = Some (false, data)).
Proof.
  split.
  - intros fuel geom. apply intersect_false_same.
  - intros fuel this l r op ray data dl dr El Er. cbn [intersect].
    rewrite (findAllIntersections_miss _ fuel _ _ El).
    rewrite (findAllIntersections_miss _ fuel _ _ Er).
    reflexivity.
Qed.

(** C5 (as amended): on every accepted hit the argument handed to [asin] is
    the quotient (p.y - center.y) / R itself; nothing bounds it to [-1,1]
    before the call. *)
Theorem C5_asin_argument_is_raw_quotient :
  forall this center R ray (info info' : IntersectionData),
    Sphere_intersect this center R ray info = (true, info') ->
    v info'
    = of_int 1
      - (PI / of_int 2 + asin ((y (p info') - y center) / R)) / PI.
Proof.
  intros this center R ray info info'. unfold Sphere_intersect.
  destruct (sphere_sol center R ray) as [sol|]; [|discriminate].
  destruct (sol >? dist info); [discriminate|].
  intros H. injection H as <-. reflexivity.
Qed.

(** C6: the flags the sweep of a CSG node starts from are the parities of
    the numbers of hits enumerated for the left and for the right child. *)
Theorem C6_initial_inside_is_hit_count_parity :
  forall fuel this left right boolOp ray (data : IntersectionData),
    intersect fuel (CsgOp this left right boolOp) ray data
    = match findAllIntersections (intersect fuel left) fuel ray (of_int 0) [],
            findAllIntersections (intersect fuel right) fuel ray (of_int 0) []
      with
      | Some L, Some R =>
        Some (sweep left boolOp data (sort_by_dist (L ++ R))
                    (Nat.odd (length L)) (Nat.odd (length R)))
      | _, _ => None
      end.
Proof.
  intros. cbn [intersect].
  destruct (findAllIntersections (intersect fuel left) _ _ _ _) as [L|];
    [|reflexivity].
  destruct (findAllIntersections (intersect fuel right) _ _ _ _) as [R|];
    [|reflexivity].
  unfold CsgOp_sweep, initial_inside. now rewrite !parity_is_odd.
Qed.

(** Lines 59-69 compute the coefficients, the discriminant and the roots
    as section 4.2 writes them, and select among them as it says. *)
Lemma sphere_sol_is_spec center R ray :
  sphere_sol center R ray = sphere_root_spec center R ray.
Proof.
  unfold sphere_sol, sphere_root_spec.
  change (quadratic_D center R ray) with (sphere_Dscr center R ray).
  change (smaller_root center R ray) with (sphere_x2 center R ray).
  change (larger_root center R ray) with (sphere_x1 center R ray).
  destruct (sphere_Dscr center R ray <? of_int 0); [reflexivity|].
  destruct (sphere_x2 center R ray <? of_int 0) eqn:E2; cbn;
    [|now rewrite E2].
  destruct (sphere_x1 center R ray <? of_int 0); reflexivity.
Qed.

(** C10: the owner of the record a CSG node returns is that of a record
    enumerated for one of its children, hence the identity of a primitive
    leaf below the node; it is not the node unless the node's identity is
    also that of such a leaf. *)
Theorem C10_csg_owner_is_primitive_leaf :
  forall fuel this left right boolOp ray (data data' : IntersectionData),
    intersect fuel (CsgOp this left right boolOp) ray data
    = Some (true, data') ->
    (exists L R,
        findAllIntersections (intersect fuel left) fuel ray (of_int 0) []
        = Some L
        /\ findAllIntersections (intersect fuel right) fuel ray (of_int 0) []
           = Some R
        /\ In data' (L ++ R))
    /\ In (g data') (primitives left ++ primitives right)
    /\ (~ In this (primitives left ++ primitives right) -> g data' <> this).
Proof.
  intros fuel this l r op ray data data' H.
  pose proof (intersect_owner _ _ _ _ H) as Hown. cbn [primitives] in Hown.
  split; [|split; [exact Hown|congruence]].
  cbn [intersect] in H.
  destruct (findAllIntersections (intersect fuel l) _ _ _ _) as [L|];
    [|discriminate].
  destruct (findAllIntersections (intersect fuel r) _ _ _ _) as [R|];
    [|discriminate].
  exists L, R. repeat split. unfold CsgOp_sweep in H.
  destruct (sweep_cases l op data (sort_by_dist (L ++ R))
              (initial_inside L) (initial_inside R))
    as [E|(h & E & Hin & _)]; [congruence|].
  rewrite E in H. injection H as <-. now apply sort_by_dist_In.
Qed.

End ControlFlow.

(** * Hits behind the origin of the ray *)

(** ** For every arithmetic in which sums and the plane's quotient stay
       forward *)

Section Forward.

Context {T : Type} {SC : Scalar T} {LM : Libm T}.
Local Open Scope scalar_scope.

Hypothesis zero_forward : forward (of_int 0).
Hypothesis add_forward : forall a b, forward a -> forward b -> forward (a + b).
Hypothesis plane_forward :
  forall py ray, plane_guard py ray = false -> forward (plane_mult py ray).

Lemma sphere_sol_forward center R ray sol :
  sphere_sol center R ray = Some sol -> forward sol.
Proof.
  unfold sphere_sol, forward.
  destruct (sphere_Dscr center R ray <? of_int 0); [discriminate|].
  cbv zeta.
  destruct ((if sphere_x2 center R ray <? of_int 0
             then sphere_x1 center R ray else sphere_x2 center R ray)
            <? of_int 0) eqn:E; [discriminate|].
  intros H. injection H as <-. exact E.
Qed.

Lemma cube_face_forward halfSide ray center
    (st : bool * IntersectionData) side :
  (fst st = true -> forward (dist (snd st))) ->
  fst (cube_face halfSide ray center st side) = true ->
  forward (dist (snd (cube_face halfSide ray center st side))).
Proof.
  intros Hst. rewrite cube_face_eq. unfold face_candidate.
  destruct (cube_mult halfSide ray center side <? of_int 0) eqn:E;
    cbn [negb andb]; [exact Hst|].
  destruct (negb (cube_out_of_face _ _ _)
            && negb (cube_mult halfSide ray center side >? dist (snd st)));
    [|exact Hst].
  intros _. exact E.
Qed.

Lemma intersectCubeSide_forward side ray center (data : IntersectionData) :
  fst (intersectCubeSide side ray center data) = true ->
  forward (dist (snd (intersectCubeSide side ray center data))).
Proof.
  rewrite intersectCubeSide_eq.
  destruct (fabs (y (dir ray)) <? lit_1e_9); [discriminate|].
  cbv zeta. apply cube_face_forward, cube_face_forward. discriminate.
Qed.

Lemma cube_slab_forward side a b c ray center
    (st : bool * IntersectionData) :
  (fst st = true -> forward (dist (snd st))) ->
  fst (cube_slab side a b c ray center st) = true ->
  forward (dist (snd (cube_slab side a b c ray center st))).
Proof.
  intros Hst. unfold cube_slab.
  pose proof (intersectCubeSide_forward side (project_ray ray a b c)
                (project center a b c) (snd st)) as Hf.
  pose proof (intersectCubeSide_found_or_same side (project_ray ray a b c)
                (project center a b c) (snd st)) as [_ Hs].
  destruct (intersectCubeSide _ _ _ _) as [hit d]. cbn [fst snd] in *.
  destruct hit; cbn [fst snd set_normal_p dist].
  - intros _. now apply Hf.
  - rewrite Hs by reflexivity. exact Hst.
Qed.

Lemma Cube_intersect_forward this center side ray
    (data data' : IntersectionData) :
  Cube_intersect this center side ray data = (true, data') ->
  forward (dist data').
Proof.
  unfold Cube_intersect.
  set (s1 := intersectCubeSide side ray center data).
  set (s2 := cube_slab side 1 0 2 ray center s1).
  set (s3 := cube_slab side 0 2 1 ray center s2).
  assert (H3 : fst s3 = true -> forward (dist (snd s3))).
  { apply cube_slab_forward, cube_slab_forward, intersectCubeSide_forward. }
  destruct (fst s3); [|discriminate].
  intros E. injection E as <-. cbn [set_g dist]. now apply H3.
Qed.

Lemma findAllIntersections_forward
    (isect : Ray -> IntersectionData -> option (bool * IntersectionData)) :
  (forall ray d d', isect ray d = Some (true, d') -> forward (dist d')) ->
  forall fuel ray L,
    findAllIntersections isect fuel ray (of_int 0) [] = Some L ->
    Forall (fun d => forward (dist d)) L.
Proof.
  intros Hisect fuel ray L H.
  destruct (@findAllIntersections_invariant T SC
              (fun cl l => forward cl /\ Forall (fun d => forward (dist d)) l)
              isect)
    with (fuel := fuel) (ray := ray) (cl := of_int 0)
         (l := @nil (@IntersectionData T)) (L := L)
    as [cl' [_ HL]]; auto.
  intros ray' cl l temp [Hcl Hl] E. apply Hisect in E.
  split; [now apply add_forward|]. apply Forall_app. split; [assumption|].
  constructor; [|constructor]. cbn [set_dist dist]. now apply add_forward.
Qed.

Lemma intersect_forward fuel geom :
  forall ray (data data' : IntersectionData),
    intersect fuel geom ray data = Some (true, data') -> forward (dist data').
Proof.
  induction geom as [this py|this center R|this center side
                    |this l IHl r IHr op];
    intros ray data data' H; cbn [intersect] in H.
  - destruct (Plane_intersect_cases this py ray data)
      as [E|(G & _ & pt & n & a & b & E)]; [congruence|].
    rewrite E in H. injection H as <-. now apply plane_forward.
  - destruct (Sphere_intersect_cases this center R ray data)
      as [E|(sol & S & _ & pt & n & a & b & E)]; [congruence|].
    rewrite E in H. injection H as <-. cbn [dist].
    eapply sphere_sol_forward; eassumption.
  - injection H as H. eapply Cube_intersect_forward; eassumption.
  - destruct (findAllIntersections (intersect fuel l) _ _ _ _) as [L|] eqn:EL;
      [|discriminate].
    destruct (findAllIntersections (intersect fuel r) _ _ _ _) as [R|] eqn:ER;
      [|discriminate].
    unfold CsgOp_sweep in H.
    destruct (sweep_cases l op data (sort_by_dist (L ++ R))
                (initial_inside L) (initial_inside R))
      as [E|(h & E & Hin & _)]; [congruence|].
    rewrite E in H. injection H as <-.
    apply sort_by_dist_In, in_app_or in Hin.
    apply findAllIntersections_forward in EL; [|exact IHl].
    apply findAllIntersections_forward in ER; [|exact IHr].
    rewrite Forall_forall in EL, ER. destruct Hin; auto.
Qed.

End Forward.

(** ** The two facts in binary64 *)

Section Sign64.
Local Open Scope Z_scope.

Lemma binary_round_aux_sign sx m e l :
  sign_is sx (binary_round_aux prec emax sx m e l).
Proof.
  unfold binary_round_aux.
  destruct (shr_fexp prec emax m e l) as [mrs' e'].
  destruct (shr_fexp prec emax _ e' loc_Exact) as [mrs'' e''].
  destruct (shr_m mrs''); [reflexivity| |exact I].
  destruct (e'' <=? emax - prec); reflexivity.
Qed.

Lemma binary_round_sign sx m e : sign_is sx (binary_round prec emax sx m e).
Proof.
  unfold binary_round. destruct shl_align. apply binary_round_aux_sign.
Qed.

Lemma binary_normalize_pos m e sz :
  0 < m -> sign_is false (binary_normalize prec emax m e sz).
Proof. destruct m; try lia. intros _. apply binary_round_sign. Qed.

Lemma binary_normalize_neg m e sz :
  m < 0 -> sign_is true (binary_normalize prec emax m e sz).
Proof. destruct m; try lia. intros _. apply binary_round_sign. Qed.

Lemma sign_is_not_below a : sign_is false a -> below_zero a = false.
Proof. destruct a as [s|s| |s m e]; cbn; intros; subst; reflexivity. Qed.

Lemma zero_or_nan_not_below a : zero_or_nan a -> below_zero a = false.
Proof. destruct a as [s|s| |s m e]; cbn; intros; tauto. Qed.

Lemma sign_is_opp s a : sign_is s a -> sign_is (negb s) (SFopp a).
Proof. destruct a as [t|t| |t m e]; cbn; intros; subst; reflexivity. Qed.

Lemma SFltb_zero a : SFltb a (S754_zero false) = below_zero a.
Proof. destruct a as [[]|[]| |[] m e]; reflexivity. Qed.

(** A quotient of operands of equal sign is not below zero. *)
Lemma SFdiv_same_sign s a b :
  sign_is s a -> sign_is s b -> below_zero (SF64div a b) = false.
Proof.
  destruct a as [sa|sa| |sa ma ea], b as [sb|sb| |sb mb eb]; cbn;
    intros Ha Hb; subst; rewrite ?xorb_nilpotent; try reflexivity.
  apply sign_is_not_below. unfold SF64div, SFdiv.
  destruct SFdiv_core_binary as [[mz ez] lz].
  pose proof (binary_round_aux_sign (xorb s s) mz ez lz) as H.
  now rewrite xorb_nilpotent in H.
Qed.

Lemma SFdiv_zero_or_nan a b :
  zero_or_nan a -> below_zero (SF64div a b) = false.
Proof.
  destruct a as [sa|sa| |sa ma ea], b as [sb|sb| |sb mb eb]; cbn;
    intros; try reflexivity; tauto.
Qed.

(** A sum of operands that are not below zero is not below zero. *)
Lemma SFadd_not_below a b :
  below_zero a = false -> below_zero b = false ->
  below_zero (SF64add a b) = false.
Proof.
  destruct a as [sa|[]| |[] ma ea], b as [sb|[]| |[] mb eb];
    try reflexivity; try discriminate; intros _ _.
  - destruct sa, sb; reflexivity.
  - apply sign_is_not_below. unfold SF64add, SFadd.
    apply binary_normalize_pos. cbn [cond_Zopp]. lia.
Qed.

(** Digits, shifts, and the order of canonical mantissas. *)
Lemma digits2_pos_bounds m :
  2 ^ (Z.pos (digits2_pos m) - 1) <= Z.pos m < 2 ^ Z.pos (digits2_pos m).
Proof.
  induction m as [m IH|m IH|]; cbn [digits2_pos].
  - rewrite Pos2Z.inj_succ.
    replace (Z.succ (Z.pos (digits2_pos m)) - 1)
      with (Z.succ (Z.pos (digits2_pos m) - 1)) by lia.
    rewrite !Z.pow_succ_r by lia. lia.
  - rewrite Pos2Z.inj_succ.
    replace (Z.succ (Z.pos (digits2_pos m)) - 1)
      with (Z.succ (Z.pos (digits2_pos m) - 1)) by lia.
    rewrite !Z.pow_succ_r by lia. lia.
  - cbn. lia.
Qed.

Lemma iter_xO_value m d : Z.pos (Pos.iter xO m d) = Z.pos m * 2 ^ Z.pos d.
Proof.
  revert m. induction d as [|d IH] using Pos.peano_ind; intros m.
  - cbn. lia.
  - rewrite Pos.iter_succ, Pos2Z.inj_succ, Z.pow_succ_r by lia.
    rewrite Pos2Z.inj_xO, IH. lia.
Qed.

Lemma shl_align_value m e ez :
  ez <= e -> Z.pos (fst (shl_align m e ez)) = Z.pos m * 2 ^ (e - ez).
Proof.
  intros H. unfold shl_align.
  destruct (ez - e) as [|d|d] eqn:E; cbn [fst]; try lia.
  - replace (e - ez) with 0 by lia. lia.
  - rewrite iter_xO_value. f_equal. f_equal. lia.
Qed.

Lemma bounded_lt ma ea mb eb :
  SpecFloat.bounded prec emax ma ea = true -> SpecFloat.bounded prec emax mb eb = true ->
  ea < eb -> Z.pos ma < Z.pos mb * 2 ^ (eb - ea).
Proof.
  unfold SpecFloat.bounded, canonical_mantissa, fexp, emin, prec, emax.
  rewrite !andb_true_iff, !Z.eqb_eq, !Z.leb_le.
  intros [Ha _] [Hb _] Hlt.
  pose proof (digits2_pos_bounds ma) as [_ Ba].
  pose proof (digits2_pos_bounds mb) as [Bb _].
  assert (Da : Z.pos (digits2_pos ma) <= 53) by lia.
  assert (Db : Z.pos (digits2_pos mb) = 53) by lia.
  rewrite Db in Bb.
  assert (Ha' : Z.pos ma < 2 ^ 53).
  { eapply Z.lt_le_trans; [exact Ba|]. apply Z.pow_le_mono_r; lia. }
  assert (Hp : 2 ^ 1 <= 2 ^ (eb - ea)) by (apply Z.pow_le_mono_r; lia).
  change (2 ^ (53 - 1)) with 4503599627370496 in Bb.
  change (2 ^ 53) with 9007199254740992 in Ha'.
  change (2 ^ 1) with 2 in Hp. nia.
Qed.

(** The comparison of two finite values is that of their aligned
    mantissas. *)
Lemma aligned_compare sa ma ea sb mb eb :
  SpecFloat.bounded prec emax ma ea = true -> SpecFloat.bounded prec emax mb eb = true ->
  SFcompare (S754_finite sa ma ea) (S754_finite sb mb eb)
  = Some (aligned sa ma ea (Z.min ea eb) ?= aligned sb mb eb (Z.min ea eb)).
Proof.
  intros Ba Bb. unfold aligned.
  rewrite !shl_align_value by lia.
  assert (Pa : 0 < 2 ^ (ea - Z.min ea eb)) by (apply Z.pow_pos_nonneg; lia).
  assert (Pb : 0 < 2 ^ (eb - Z.min ea eb)) by (apply Z.pow_pos_nonneg; lia).
  cbn [SFcompare]. f_equal.
  destruct (Z.compare_spec ea eb) as [E|E|E].
  - subst eb. rewrite Z.min_id, Z.sub_diag, !Z.mul_1_r.
    destruct sa, sb; reflexivity.
  - pose proof (@bounded_lt _ _ _ _ Ba Bb E) as H.
    rewrite Z.min_l, Z.sub_diag, Z.mul_1_r by lia.
    destruct sa, sb; cbn [cond_Zopp]; symmetry;
      first [apply Z.compare_lt_iff | apply Z.compare_gt_iff]; lia.
  - pose proof (@bounded_lt _ _ _ _ Bb Ba E) as H.
    rewrite Z.min_r, Z.sub_diag, Z.mul_1_r by lia.
    destruct sa, sb; cbn [cond_Zopp]; symmetry;
      first [apply Z.compare_lt_iff | apply Z.compare_gt_iff]; lia.
Qed.

Lemma SFsub_sign_finite sa ma ea sb mb eb :
  SpecFloat.bounded prec emax ma ea = true -> SpecFloat.bounded prec emax mb eb = true ->
  SFsub_sign_statement (S754_finite sa ma ea) (S754_finite sb mb eb).
Proof.
  intros Va Vb. unfold SFsub_sign_statement, SFltb.
  rewrite (@aligned_compare sa ma ea sb mb eb Va Vb).
  rewrite (@aligned_compare sb mb eb sa ma ea Vb Va).
  rewrite (Z.min_comm eb ea).
  unfold SF64sub, SFsub. fold (aligned sa ma ea (Z.min ea eb)).
  fold (aligned sb mb eb (Z.min ea eb)).
  set (za := aligned sa ma ea (Z.min ea eb)).
  set (zb := aligned sb mb eb (Z.min ea eb)).
  destruct (Z.compare_spec zb za) as [E|E|E];
    destruct (Z.compare_spec za zb) as [E'|E'|E']; try lia;
    repeat split; intros; try discriminate.
  - replace (za - zb) with 0 by lia. exact I.
  - apply binary_normalize_pos. lia.
  - apply binary_normalize_neg. lia.
Qed.

Lemma SFsub_sign a b :
  valid_binary a = true -> valid_binary b = true -> SFsub_sign_statement a b.
Proof.
  intros Va Vb.
  destruct a as [sa|sa| |sa ma ea], b as [sb|sb| |sb mb eb];
    try (apply SFsub_sign_finite; assumption);
    unfold SFsub_sign_statement;
    repeat match goal with s : bool |- _ => destruct s end;
    cbn; repeat split; intros; try discriminate; try reflexivity; exact I.
Qed.

(** Not above a negative constant: negative (or NaN); not below a positive
    constant: positive (or NaN). *)
Lemma not_above_negative m e a :
  SFltb (S754_finite true m e) a = false -> sign_is true a.
Proof.
  destruct a as [[]|[]| |[] ma ea]; cbn; intros; try reflexivity;
    try discriminate; exact I.
Qed.

Lemma not_below_positive m e a :
  SFltb a (S754_finite false m e) = false -> sign_is false a.
Proof.
  destruct a as [[]|[]| |[] ma ea]; cbn; intros; try reflexivity;
    try discriminate; exact I.
Qed.

(** Rounding does not produce NaN from a mantissa that is not negative. *)
Lemma shr_1_nonneg mrs : 0 <= shr_m mrs -> 0 <= shr_m (shr_1 mrs).
Proof.
  destruct mrs as [m r s]. cbn [shr_m shr_1].
  destruct m as [|[q|q|]|[q|q|]]; cbn [shr_m]; lia.
Qed.

Lemma iter_pos_invariant (A : Type) (P : A -> Prop) (f : A -> A) :
  (forall a, P a -> P (f a)) ->
  forall n a, P a -> P (SpecFloat.iter_pos f n a).
Proof.
  intros Hf. induction n as [n IH|n IH|]; intros a Ha;
    cbn [SpecFloat.iter_pos]; auto.
Qed.

Lemma shr_nonneg mrs e n :
  0 <= shr_m mrs -> 0 <= shr_m (fst (shr mrs e n)).
Proof.
  intros H. unfold shr. destruct n; cbn [fst]; try assumption.
  apply (@iter_pos_invariant _ (fun r => 0 <= shr_m r)); [|assumption].
  apply shr_1_nonneg.
Qed.

Lemma shr_record_of_loc_m m l : shr_m (shr_record_of_loc m l) = m.
Proof. destruct l as [|[]]; reflexivity. Qed.

Lemma shr_fexp_nonneg m e l :
  0 <= m -> 0 <= shr_m (fst (shr_fexp prec emax m e l)).
Proof.
  intros H. unfold shr_fexp. apply shr_nonneg.
  now rewrite shr_record_of_loc_m.
Qed.

Lemma round_nearest_even_nonneg m l : 0 <= m -> 0 <= round_nearest_even m l.
Proof.
  intros H. destruct l as [|[]]; cbn; try assumption; try lia.
  destruct (Z.even m); lia.
Qed.

Lemma binary_round_aux_not_nan s m e l :
  0 <= m -> not_nan (binary_round_aux prec emax s m e l) = true.
Proof.
  intros H. unfold binary_round_aux.
  pose proof (@shr_fexp_nonneg m e l H) as H1.
  destruct (shr_fexp prec emax m e l) as [mrs' e']. cbn [fst] in H1.
  pose proof (@shr_fexp_nonneg
                (round_nearest_even (shr_m mrs') (loc_of_shr_record mrs'))
                e' loc_Exact (@round_nearest_even_nonneg _ _ H1)) as H2.
  destruct (shr_fexp prec emax _ e' loc_Exact) as [mrs'' e''].
  cbn [fst] in H2.
  destruct (shr_m mrs''); try lia; [reflexivity|].
  destruct (e'' <=? emax - prec); reflexivity.
Qed.

Lemma binary_normalize_not_nan m e sz :
  not_nan (binary_normalize prec emax m e sz) = true.
Proof.
  destruct m; cbn [binary_normalize]; try reflexivity;
    unfold binary_round; destruct shl_align;
    apply binary_round_aux_not_nan; lia.
Qed.

Lemma SFmul_not_nan a b :
  nonzero_finite a = true -> not_nan b = true -> not_nan (SF64mul a b) = true.
Proof.
  destruct a as [sa|sa| |sa ma ea], b as [sb|sb| |sb mb eb];
    try discriminate; try reflexivity; intros _ _.
  apply binary_round_aux_not_nan. lia.
Qed.

Lemma SFmul_finite_not_nan a b :
  finite_or_zero a = true -> finite_or_zero b = true ->
  not_nan (SF64mul a b) = true.
Proof.
  destruct a as [sa|sa| |sa ma ea], b as [sb|sb| |sb mb eb];
    try discriminate; try reflexivity; intros _ _.
  apply binary_round_aux_not_nan. lia.
Qed.

Lemma SFadd_not_nan a b :
  finite_or_zero a = true -> not_nan b = true -> not_nan (SF64add a b) = true.
Proof.
  destruct a as [sa|sa| |sa ma ea], b as [sb|sb| |sb mb eb];
    try discriminate; try reflexivity; intros _ _.
  - destruct sa, sb; reflexivity.
  - apply binary_normalize_not_nan.
Qed.

Lemma SFsub_not_nan a b :
  finite_or_zero a = true -> not_nan b = true -> not_nan (SF64sub a b) = true.
Proof.
  destruct a as [sa|sa| |sa ma ea], b as [sb|sb| |sb mb eb];
    try discriminate; try reflexivity; intros _ _.
  - destruct sa, sb; reflexivity.
  - apply binary_normalize_not_nan.
Qed.

Lemma SFdiv_core_nonneg m1 e1 m2 e2 :
  0 <= fst (fst (SFdiv_core_binary prec emax (Z.pos m1) e1 (Z.pos m2) e2)).
Proof.
  unfold SFdiv_core_binary.
  set (s := _ - _ - _).
  set (m' := match s with Z.pos _ => _ | 0 => _ | Z.neg _ => _ end).
  assert (Hm : 0 <= m').
  { unfold m'. destruct s; try lia. apply Z.shiftl_nonneg. lia. }
  pose proof (Z.div_pos m' (Z.pos m2) Hm ltac:(lia)) as Hq.
  unfold Z.div in Hq.
  destruct (Z.div_eucl m' (Z.pos m2)) as [q r]. exact Hq.
Qed.

Lemma SFdiv_not_nan a b :
  not_nan a = true -> nonzero_finite b = true -> not_nan (SF64div a b) = true.
Proof.
  destruct a as [sa|sa| |sa ma ea], b as [sb|sb| |sb mb eb];
    try discriminate; try reflexivity; intros _ _.
  unfold SF64div, SFdiv.
  pose proof (SFdiv_core_nonneg ma ea mb eb) as H.
  destruct SFdiv_core_binary as [[mz ez] lz]. cbn [fst] in H.
  now apply binary_round_aux_not_nan.
Qed.

(** The integer [ord] orders the values that are not NaN. *)
Lemma bounded_range m e :
  SpecFloat.bounded prec emax m e = true ->
  -1074 <= e <= 971 /\ 0 < Z.pos m * 2 ^ (e + 1074) < top.
Proof.
  unfold SpecFloat.bounded, canonical_mantissa, fexp, emin, prec, emax.
  rewrite !andb_true_iff, !Z.eqb_eq, !Z.leb_le.
  intros [Hc He].
  pose proof (digits2_pos_bounds m) as [_ Bm].
  assert (D : Z.pos (digits2_pos m) <= 53) by lia.
  assert (Hm : Z.pos m < 2 ^ 53).
  { eapply Z.lt_le_trans; [exact Bm|]. apply Z.pow_le_mono_r; lia. }
  assert (Hr : -1074 <= e <= 971) by lia.
  split; [exact Hr|].
  assert (P : 0 < 2 ^ (e + 1074)) by (apply Z.pow_pos_nonneg; lia).
  assert (Q : 2 ^ (e + 1074) <= 2 ^ 2045) by (apply Z.pow_le_mono_r; lia).
  split; [lia|].
  apply Z.lt_le_trans with (2 ^ 53 * 2 ^ (e + 1074)).
  - apply Z.mul_lt_mono_pos_r; assumption.
  - apply Z.le_trans with (2 ^ 53 * 2 ^ 2045).
    + apply Z.mul_le_mono_nonneg_l; [apply Z.pow_nonneg; lia|assumption].
    + rewrite <- Z.pow_add_r by lia. unfold top.
      apply Z.pow_le_mono_r; lia.
Qed.

Lemma aligned_ord s m e ez :
  -1074 <= ez <= e ->
  cond_Zopp s (Z.pos m * 2 ^ (e + 1074)) = aligned s m e ez * 2 ^ (ez + 1074).
Proof.
  intros H. unfold aligned. rewrite shl_align_value by lia.
  replace (e + 1074) with ((e - ez) + (ez + 1074)) by lia.
  rewrite Z.pow_add_r by lia. destruct s; cbn [cond_Zopp]; lia.
Qed.

Lemma SFcompare_ord a b :
  valid_binary a = true -> valid_binary b = true ->
  not_nan a = true -> not_nan b = true ->
  SFcompare a b = Some (ord a ?= ord b).
Proof.
  intros Va Vb Na Nb.
  destruct a as [sa|sa| |sa ma ea], b as [sb|sb| |sb mb eb];
    try discriminate; cbn [valid_binary] in Va, Vb;
    try (pose proof (@bounded_range _ _ Va) as [Ra Pa]);
    try (pose proof (@bounded_range _ _ Vb) as [Rb Pb]);
    assert (Ht : 0 < top) by (unfold top; apply Z.pow_pos_nonneg; lia).
  all: try (cbn [SFcompare ord]; f_equal; symmetry;
            repeat match goal with s : bool |- _ => destruct s end;
            cbn [cond_Zopp];
            first [ reflexivity
                  | apply Z.compare_lt_iff; lia
                  | apply Z.compare_gt_iff; lia
                  | apply Z.compare_eq_iff; lia ]).
  rewrite (@aligned_compare sa ma ea sb mb eb Va Vb). f_equal. cbn [ord].
  rewrite (@aligned_ord sa ma ea (Z.min ea eb)) by lia.
  rewrite (@aligned_ord sb mb eb (Z.min ea eb)) by lia.
  apply Zmult_compare_compat_r. apply Z.lt_gt, Z.pow_pos_nonneg; lia.
Qed.

End Sign64.

Section Forward64.
Local Open Scope float_scope.

Lemma ltb_zero_spec (t : float) :
  PrimFloat.ltb t (float_of_int 0) = below_zero (Prim2SF t).
Proof. rewrite ltb_spec. apply SFltb_zero. Qed.

Lemma add_forward64 (a b : float) :
  forward a -> forward b -> forward (add a b).
Proof.
  unfold forward. cbn [ltb add of_int binary64].
  rewrite !ltb_zero_spec, add_spec. apply SFadd_not_below.
Qed.

Lemma plane_forward64 (py : float) (ray : @Ray float) :
  plane_guard py ray = false -> forward (plane_mult py ray).
Proof.
  unfold plane_guard, plane_mult, plane_denominator, forward.
  cbn [ltb sub div opp of_int lit_1e_9 binary64].
  rewrite ltb_zero_spec, div_spec, sub_spec, opp_spec, !ltb_spec, opp_spec.
  set (sy := Prim2SF (y (start ray))). set (dy := Prim2SF (y (dir ray))).
  set (Y := Prim2SF py).
  destruct (@SFsub_sign sy Y (Prim2SF_valid _) (Prim2SF_valid _))
    as (Habove & Hbelow & Hon).
  change (Prim2SF 0x1.12e0be826d695p-30)
    with (S754_finite false 4835703278458517 (-82)).
  cbn [SFopp negb].
  destruct (SFltb Y sy) eqn:E1; cbn [andb orb].
  - destruct (SFltb (S754_finite true 4835703278458517 (-82)) dy) eqn:E2;
      [discriminate|]. intros _.
    apply (SFdiv_same_sign false); [now apply Habove|].
    apply not_above_negative in E2. apply sign_is_opp in E2. exact E2.
  - destruct (SFltb sy Y) eqn:E3; cbn [andb].
    + destruct (SFltb dy (S754_finite false 4835703278458517 (-82))) eqn:E2;
        [discriminate|]. intros _.
      apply (SFdiv_same_sign true); [now apply Hbelow|].
      apply not_below_positive in E2. apply sign_is_opp in E2. exact E2.
    + intros _. apply SFdiv_zero_or_nan. now apply Hon.
Qed.

Lemma intersect_forward64 (LM : Libm float) fuel geom ray
    (data data' : @IntersectionData float) :
  intersect fuel geom ray data = Some (true, data') ->
  PrimFloat.ltb (dist data') (float_of_int 0) = false.
Proof.
  apply (@intersect_forward float binary64 LM).
  - reflexivity.
  - apply add_forward64.
  - apply plane_forward64.
Qed.

End Forward64.

(** * The cube in binary64, on finite inputs *)

Section Cube64.
Local Open Scope Z_scope.

Lemma ltb64_cases (a b : float) :
  is_num a -> is_num b ->
  (PrimFloat.ltb a b = true /\ F2Z a < F2Z b)
  \/ (PrimFloat.ltb a b = false /\ F2Z b <= F2Z a).
Proof.
  intros Na Nb. rewrite ltb_spec. unfold SFltb, F2Z.
  rewrite (@SFcompare_ord _ _ (Prim2SF_valid a) (Prim2SF_valid b) Na Nb).
  destruct (Z.compare_spec (ord (Prim2SF a)) (ord (Prim2SF b)));
    [right|left|right]; split; try reflexivity; lia.
Qed.

Lemma ltb64_false (a b : float) :
  is_num a -> is_num b -> F2Z b <= F2Z a -> PrimFloat.ltb a b = false.
Proof.
  intros Na Nb H. destruct (ltb64_cases Na Nb) as [[_ H']|[E _]];
    [lia|exact E].
Qed.

Lemma ltb64_true (a b : float) :
  is_num a -> is_num b -> F2Z a < F2Z b -> PrimFloat.ltb a b = true.
Proof.
  intros Na Nb H. destruct (ltb64_cases Na Nb) as [[E _]|[_ H']];
    [exact E|lia].
Qed.

Lemma finite64_is_num t : finite64 t -> is_num t.
Proof. unfold finite64, is_num. now destruct (Prim2SF t). Qed.

(** The ray parameter of a face is a number when the inputs are finite and
    the slab is not skipped. *)
Lemma cube_mult_is_num side (ray : @Ray float) center sd :
  finite64 side -> finite64 (y (start ray)) -> finite64 (y center) ->
  finite64 (y (dir ray)) ->
  PrimFloat.ltb (PrimFloat.abs (y (dir ray))) lit_1e_9 = false ->
  is_side sd ->
  is_num (cube_mult (mul side lit_0_5) ray center sd).
Proof.
  unfold finite64, is_num, cube_mult.
  cbn [ltb add sub mul div opp of_int lit_1e_9 lit_0_5 binary64].
  intros Fs Fy Fc Fd G Hs.
  rewrite div_spec, sub_spec, add_spec, mul_spec, mul_spec, opp_spec.
  rewrite ltb_spec, abs_spec in G.
  apply SFdiv_not_nan.
  - apply SFsub_not_nan; [exact Fy|].
    apply SFadd_not_nan; [exact Fc|].
    apply SFmul_not_nan.
    + destruct Hs as [->| ->]; reflexivity.
    + apply SFmul_finite_not_nan; [exact Fs|reflexivity].
  - destruct (Prim2SF (y (dir ray))) as [sd'|sd'| |sd' md ed];
      try discriminate; reflexivity.
Qed.

Ltac ltb64_split :=
  repeat match goal with
  | |- context [PrimFloat.ltb ?a ?b] =>
    let E := fresh "E" in let H := fresh "H" in
    destruct (@ltb64_cases a b ltac:(assumption) ltac:(assumption))
      as [[E H]|[E H]]; rewrite E in *
  end.

Ltac num64 :=
  first [ assumption | reflexivity | discriminate | congruence
        | apply ltb64_false; [assumption|assumption|lia]
        | apply ltb64_true; [assumption|assumption|lia] ].

Lemma intersectCubeSide_64 side (ray : @Ray float) center
    (data : @IntersectionData float) :
  finite64 side -> finite64 (y (start ray)) -> finite64 (y center) ->
  finite64 (y (dir ray)) -> is_num (dist data) ->
  slab_summary64
    (fun sd => negb (ltb (fabs (y (dir ray))) lit_1e_9)
               && face_candidate (mul side lit_0_5) ray center sd)
    (cube_mult (mul side lit_0_5) ray center)
    (false, data) (intersectCubeSide side ray center data).
Proof.
  intros Fs Fy Fc Fd N0. unfold slab_summary64, is_side.
  rewrite intersectCubeSide_eq.
  change (@ltb float binary64) with PrimFloat.ltb in *.
  change (@fabs float binary64) with PrimFloat.abs in *.
  destruct (PrimFloat.ltb (PrimFloat.abs (y (dir ray))) lit_1e_9) eqn:G.
  - cbn [fst snd negb andb]. split; [exact N0|]. split; [num64|]. split.
    + left. split; [reflexivity|]. intros; discriminate.
    + intros; discriminate.
  - pose proof (@cube_mult_is_num side ray center (-1) Fs Fy Fc Fd G
                  (or_introl eq_refl)) as N1.
    pose proof (@cube_mult_is_num side ray center 1 Fs Fy Fc Fd G
                  (or_intror eq_refl)) as N2.
    cbv zeta. rewrite !cube_face_eq.
    change (@ltb float binary64) with PrimFloat.ltb in *.
    set (h := mul side lit_0_5) in *.
    destruct (face_candidate h ray center (-1)) eqn:C1;
      destruct (face_candidate h ray center 1) eqn:C2;
      cbn [andb negb fst snd dist face_record g]; ltb64_split;
      cbn [andb negb fst snd dist face_record g]; ltb64_split;
      cbn [andb negb fst snd dist face_record g] in *;
      try solve [exfalso; lia];
      (split; [num64|]; split; [num64|]; split;
       [ first
           [ left; split; [reflexivity|];
             intros sd [->| ->] C; num64
           | right; split; [reflexivity|];
             first [ exists 1%Z; now auto | exists (-1)%Z; now auto ] ]
       | intros sd [->| ->] C; num64 ]).
Qed.

Lemma ltb64_false_inv (a b : float) :
  is_num a -> is_num b -> PrimFloat.ltb a b = false -> F2Z b <= F2Z a.
Proof.
  intros Na Nb E. destruct (ltb64_cases Na Nb) as [[E' _]|[_ H]];
    [congruence|exact H].
Qed.

Lemma cube_slab_64 side a b c (ray : @Ray float) center
    (st : bool * @IntersectionData float) :
  finite64 side -> finite64 (y (start (project_ray ray a b c))) ->
  finite64 (y (project center a b c)) ->
  finite64 (y (dir (project_ray ray a b c))) -> is_num (dist (snd st)) ->
  slab_summary64
    (fun sd => negb (ltb (fabs (y (dir (project_ray ray a b c)))) lit_1e_9)
               && face_candidate (mul side lit_0_5) (project_ray ray a b c)
                                 (project center a b c) sd)
    (cube_mult (mul side lit_0_5) (project_ray ray a b c)
               (project center a b c))
    st (cube_slab side a b c ray center st).
Proof.
  intros Fs Fy Fc Fd N0.
  pose proof (@intersectCubeSide_64 side (project_ray ray a b c)
                (project center a b c) (snd st) Fs Fy Fc Fd N0) as H.
  unfold cube_slab.
  destruct (intersectCubeSide _ _ _ _) as [hit d].
  unfold slab_summary64 in *. cbn [fst snd] in H.
  destruct H as (Hn & Hle & Hc & Hall).
  destruct hit; cbn [fst snd set_normal_p dist].
  - split; [exact Hn|]. split; [exact Hle|]. split; [|exact Hall].
    destruct Hc as [[E _]|Hc]; [discriminate|]. now right.
  - split; [exact Hn|]. split; [exact Hle|]. split; [|exact Hall].
    destruct Hc as [[E Hc]|[E _]]; [|discriminate].
    injection E as ->. left. split; [now destruct st|exact Hc].
Qed.

(** The three slab tests, by axis. *)
Lemma Cube_intersect_slabs64 center side (ray : @Ray float)
    (data : @IntersectionData float) :
  finite_ray ray -> finite_vec center -> finite64 side ->
  is_num (dist data) ->
  let st1 := intersectCubeSide side ray center data in
  let st2 := cube_slab side 1 0 2 ray center st1 in
  let st3 := cube_slab side 0 2 1 ray center st2 in
  slab_summary64 (axis_candidate center side ray AxisY)
                 (axis_mult center side ray AxisY) (false, data) st1
  /\ slab_summary64 (axis_candidate center side ray AxisX)
                    (axis_mult center side ray AxisX) st1 st2
  /\ slab_summary64 (axis_candidate center side ray AxisZ)
                    (axis_mult center side ray AxisZ) st2 st3.
Proof.
  intros [(Fsx & Fsy & Fsz) (Fdx & Fdy & Fdz)] (Fcx & Fcy & Fcz) Fs N0
         st1 st2 st3.
  assert (S1 : slab_summary64 (axis_candidate center side ray AxisY)
                 (axis_mult center side ray AxisY) (false, data) st1).
  { apply intersectCubeSide_64; assumption. }
  assert (S2 : slab_summary64 (axis_candidate center side ray AxisX)
                 (axis_mult center side ray AxisX) st1 st2).
  { apply cube_slab_64; try assumption. apply S1. }
  split; [exact S1|]. split; [exact S2|].
  apply cube_slab_64; try assumption. apply S2.
Qed.

Lemma Cube_intersect_nearest64 this center side (ray : @Ray float)
    (data data' : @IntersectionData float) (b : bool) :
  finite_ray ray -> finite_vec center -> finite64 side ->
  is_num (dist data) ->
  Cube_intersect this center side ray data = (b, data') ->
  if b then
    PrimFloat.ltb (dist data) (dist data') = false
    /\ (exists ax sd, is_side sd /\ axis_candidate center side ray ax sd = true
                      /\ dist data' = axis_mult center side ray ax sd)
    /\ (forall ax sd, is_side sd -> axis_candidate center side ray ax sd = true ->
                      PrimFloat.ltb (axis_mult center side ray ax sd)
                                    (dist data') = false)
  else
    data' = data
    /\ (forall ax sd, is_side sd -> axis_candidate center side ray ax sd = true ->
                      PrimFloat.ltb (dist data)
                                    (axis_mult center side ray ax sd) = true).
Proof.
  intros Fr Fc Fs N0.
  pose proof (@Cube_intersect_slabs64 center side ray data Fr Fc Fs N0) as H.
  unfold Cube_intersect. cbv zeta in H.
  set (st1 := intersectCubeSide side ray center data) in *.
  set (st2 := cube_slab side 1 0 2 ray center st1) in *.
  set (st3 := cube_slab side 0 2 1 ray center st2) in *.
  destruct H as ((N1 & L1 & C1 & A1) & (N2 & L2 & C2 & A2)
                 & (N3 & L3 & C3 & A3)).
  cbn [fst snd] in *.
  pose proof (ltb64_false_inv N0 N1 L1) as Z1.
  pose proof (ltb64_false_inv N1 N2 L2) as Z2.
  pose proof (ltb64_false_inv N2 N3 L3) as Z3.
  assert (Hnum : forall ax sd, is_side sd ->
              axis_candidate center side ray ax sd = true ->
              is_num (axis_mult center side ray ax sd)).
  { intros ax sd Hs Hc. unfold axis_candidate in Hc.
    apply andb_true_iff in Hc as [G _]. apply negb_true_iff in G.
    destruct Fr as [(Fsx & Fsy & Fsz) (Fdx & Fdy & Fdz)].
    destruct Fc as (Fcx & Fcy & Fcz).
    destruct ax; apply cube_mult_is_num; assumption. }
  assert (Hall : forall ax sd, is_side sd ->
              axis_candidate center side ray ax sd = true ->
              PrimFloat.ltb (axis_mult center side ray ax sd)
                            (dist (snd st3)) = false).
  { intros ax sd Hs Hc. pose proof (Hnum ax sd Hs Hc) as Nm.
    apply ltb64_false; try assumption.
    destruct ax.
    - pose proof (ltb64_false_inv Nm N2 (A2 sd Hs Hc)). lia.
    - pose proof (ltb64_false_inv Nm N1 (A1 sd Hs Hc)). lia.
    - pose proof (ltb64_false_inv Nm N3 (A3 sd Hs Hc)). lia. }
  destruct (fst st3) eqn:F3; intros E; injection E as <- <-;
    cbn [set_g dist].
  - split; [apply ltb64_false; try assumption; lia|]. split; [|exact Hall].
    destruct C3 as [[E3 _]|[_ (sd & Hs & Hc & Hd)]];
      [|exists AxisZ, sd; auto].
    rewrite E3 in *.
    destruct C2 as [[E2 _]|[_ (sd & Hs & Hc & Hd)]];
      [|exists AxisX, sd; auto].
    rewrite E2 in *.
    destruct C1 as [[E1 _]|[_ (sd & Hs & Hc & Hd)]];
      [|exists AxisY, sd; auto].
    rewrite E1 in F3. discriminate.
  - destruct C3 as [[E3 B3]|[E3 _]]; [|congruence].
    rewrite E3 in *.
    destruct C2 as [[E2 B2]|[E2 _]]; [|congruence].
    rewrite E2 in *.
    destruct C1 as [[E1 B1]|[E1 _]]; [|congruence].
    rewrite E1 in *. cbn [snd] in *. split; [reflexivity|].
    intros ax sd Hs Hc. destruct ax; auto.
Qed.

Lemma intersect_not_greater64 (LM : Libm float) fuel geom ray
    (data data' : @IntersectionData float) (b : bool) :
  cube_inputs_finite geom ray data ->
  intersect fuel geom ray data = Some (b, data') ->
  if b then PrimFloat.ltb (dist data) (dist data') = false else data' = data.
Proof.
  intros Hfin H. destruct b; [|eapply intersect_false_same; eassumption].
  destruct geom as [this py|this center R|this center side|this l r op];
    cbn [intersect] in H.
  - destruct (Plane_intersect_cases this py ray data)
      as [E|(_ & M & pt & n & a & c & E)]; [congruence|].
    rewrite E in H. injection H as <-. exact M.
  - destruct (Sphere_intersect_cases this center R ray data)
      as [E|(sol & _ & M & pt & n & a & c & E)]; [congruence|].
    rewrite E in H. injection H as <-. exact M.
  - injection H as H. destruct Hfin as (Fr & Fc & Fs & N0).
    apply (@Cube_intersect_nearest64 _ _ _ _ _ _ true Fr Fc Fs N0 H).
  - destruct (findAllIntersections (intersect fuel l) _ _ _ _) as [L|];
      [|discriminate].
    destruct (findAllIntersections (intersect fuel r) _ _ _ _) as [R|];
      [|discriminate].
    unfold CsgOp_sweep in H.
    destruct (sweep_cases l op data (sort_by_dist (L ++ R))
                (initial_inside L) (initial_inside R))
      as [E|(h & E & _ & Hd)]; [congruence|].
    rewrite E in H. injection H as <-. exact Hd.
Qed.

End Cube64.


(** * The order of distances, in binary64 *)

Section Order64.
Local Open Scope Z_scope.

(** A number that is not below zero is at least zero. *)
Lemma not_below_is_nonneg (a : float) :
  is_num a -> PrimFloat.ltb a (float_of_int 0) = false ->
  PrimFloat.leb (float_of_int 0) a = true.
Proof.
  unfold is_num. rewrite ltb_zero_spec, leb_spec.
  change (Prim2SF (float_of_int 0)) with (S754_zero false).
  destruct (Prim2SF a) as [s|[]| |[] m e]; cbn; congruence.
Qed.

(** [a < b] holds between numbers only, and is their order. *)
Lemma ltb64_inv (a b : float) :
  PrimFloat.ltb a b = true -> is_num a /\ is_num b /\ F2Z a < F2Z b.
Proof.
  intros H.
  assert (N : is_num a /\ is_num b).
  { rewrite ltb_spec in H. unfold is_num, SFltb in *.
    destruct (Prim2SF a), (Prim2SF b); cbn in *; try discriminate; auto. }
  destruct N as [Na Nb]. split; [exact Na|]. split; [exact Nb|].
  destruct (ltb64_cases Na Nb) as [[_ Hlt]|[E _]]; [exact Hlt|congruence].
Qed.

Lemma leb64_true (a b : float) :
  is_num a -> is_num b -> F2Z a <= F2Z b -> PrimFloat.leb a b = true.
Proof.
  intros Na Nb H. rewrite leb_spec. unfold SFleb, F2Z in *.
  rewrite (@SFcompare_ord _ _ (Prim2SF_valid a) (Prim2SF_valid b) Na Nb).
  destruct (Z.compare_spec (ord (Prim2SF a)) (ord (Prim2SF b)));
    try reflexivity; lia.
Qed.

(** Between numbers, "not greater" is "less or equal". *)
Lemma not_greater_is_leb (a b : float) :
  is_num a -> is_num b -> PrimFloat.ltb a b = false ->
  PrimFloat.leb b a = true.
Proof.
  intros Na Nb H. apply leb64_true; [assumption|assumption|].
  now apply ltb64_false_inv.
Qed.

(** At least zero: not below zero. *)
Lemma nonneg_is_not_below (a : float) :
  PrimFloat.leb (float_of_int 0) a = true ->
  PrimFloat.ltb a (float_of_int 0) = false.
Proof.
  rewrite ltb_zero_spec, leb_spec.
  change (Prim2SF (float_of_int 0)) with (S754_zero false).
  destruct (Prim2SF a) as [s|[]| |[] m e]; cbn; congruence.
Qed.

Lemma ltb64_trans (a b c : float) :
  PrimFloat.ltb a b = true -> PrimFloat.ltb b c = true ->
  PrimFloat.ltb a c = true.
Proof.
  intros H1 H2. apply ltb64_inv in H1, H2.
  destruct H1 as (Na & Nb & H1), H2 as (_ & Nc & H2).
  apply ltb64_true; [assumption|assumption|lia].
Qed.

End Order64.

(** C7: the candidate of [Sphere::intersect] is the one section 4.2
    describes, with the roots as the section writes them: none for a
    negative discriminant B^2 - 4AC', the smaller root
    (-B - sqrt(discriminant)) / 2A unless it is negative, else the larger
    root (-B + sqrt(discriminant)) / 2A unless it is negative, else none;
    without a candidate the sphere reports no hit, and with one the hit it
    reports is at the candidate.  This holds for every instance of the
    arithmetic, "negative" being the test [< 0] of the code.  In binary64,
    with "nonnegative" read as [0 <= root]: a negative discriminant gives
    no candidate; otherwise a nonnegative smaller root is the candidate; a
    negative smaller root with a nonnegative larger root makes the larger
    root the candidate; and two negative roots give none. *)
Theorem C7_sphere_root_selection :
  (forall (T : Type) (SC : Scalar T) (LM : Libm T) this center R ray
          (info : @IntersectionData T),
      sphere_sol center R ray = sphere_root_spec center R ray
      /\ (sphere_root_spec center R ray = None ->
          Sphere_intersect this center R ray info = (false, info))
      /\ (forall sol, sphere_root_spec center R ray = Some sol ->
            if ltb (dist info) sol
            then Sphere_intersect this center R ray info = (false, info)
            else fst (Sphere_intersect this center R ray info) = true
                 /\ dist (snd (Sphere_intersect this center R ray info))
                    = sol))
  /\ (forall center R (ray : @Ray float),
         (PrimFloat.ltb (quadratic_D center R ray) (float_of_int 0) = true ->
          sphere_sol center R ray = None)
         /\ (PrimFloat.ltb (quadratic_D center R ray) (float_of_int 0) = false ->
             PrimFloat.leb (float_of_int 0) (smaller_root center R ray) = true ->
             sphere_sol center R ray = Some (smaller_root center R ray))
         /\ (PrimFloat.ltb (quadratic_D center R ray) (float_of_int 0) = false ->
             PrimFloat.ltb (smaller_root center R ray) (float_of_int 0) = true ->
             PrimFloat.leb (float_of_int 0) (larger_root center R ray) = true ->
             sphere_sol center R ray = Some (larger_root center R ray))
         /\ (PrimFloat.ltb (quadratic_D center R ray) (float_of_int 0) = false ->
             PrimFloat.ltb (smaller_root center R ray) (float_of_int 0) = true ->
             PrimFloat.ltb (larger_root center R ray) (float_of_int 0) = true ->
             sphere_sol center R ray = None)).
Proof.
  split.
  - intros T SC LM this center R ray info.
    pose proof (@sphere_sol_is_spec T SC center R ray) as E.
    split; [exact E|]. unfold Sphere_intersect. rewrite E. split.
    + intros ->. reflexivity.
    + intros sol ->. destruct (ltb (dist info) sol); cbn; auto.
  - intros center R ray. rewrite (@sphere_sol_is_spec float binary64).
    unfold sphere_root_spec. cbn [ltb of_int binary64].
    repeat split.
    + intros ->. reflexivity.
    + intros -> H. apply nonneg_is_not_below in H. rewrite H. reflexivity.
    + intros -> -> H. apply nonneg_is_not_below in H. rewrite H. reflexivity.
    + intros -> -> ->. reflexivity.
Qed.

(** C2 (as amended): for a plane, a sphere and a CSG node on every ray and
    record, and for a cube when the ray, the centre and the side are finite
    and the [dist] of the record is not NaN: when [intersect] returns true,
    the test of lines 42, 72, 95 and 182, "the [dist] found on entry is
    less than the [dist] written", is false: the [dist] written is NaN, or
    it is a number not greater than the one found on entry (equal on a
    tie); and when [intersect] returns false no field of the record has
    changed.  The condition on the cube is needed: on a ray with infinite
    x components cube A, entered with [dist] 5, returns true with a
    greater [dist]. *)
Theorem C2_successful_dist_not_greater :
  (forall (LM : Libm float) fuel geom ray
          (data data' : @IntersectionData float) (b : bool),
      cube_inputs_finite geom ray data ->
      intersect fuel geom ray data = Some (b, data') ->
      if b then
        PrimFloat.ltb (dist data) (dist data') = false
        /\ (is_num (dist data) -> is_num (dist data') ->
            PrimFloat.leb (dist data') (dist data) = true)
      else data' = data)
  /\ (exists data' : @IntersectionData float,
         Cube_intersect 3%N (Scene64.vec64 0 0 0) (float_of_int 2)
                        Scene64.wild_ray
                        (set_dist fresh_data (float_of_int 5))
         = (true, data')
         /\ PrimFloat.ltb (float_of_int 5) (dist data') = true).
Proof.
  split.
  - intros LM fuel geom ray data data' b Hf E.
    pose proof (@intersect_not_greater64 LM fuel geom ray data data' b Hf E)
      as H.
    destruct b; [|exact H]. split; [exact H|].
    intros Na Nb. now apply not_greater_is_leb.
  - eexists. split; vm_compute; reflexivity.
Qed.


(** C9 (as amended): no variant reports a hit behind the origin of the
    ray: of the [dist] left by a successful [intersect] the test
    [dist < 0] is false.  That [dist] is NaN or a number, and when it is a
    number it is at least zero. *)
Theorem C9_successful_dist_not_below_zero :
  forall (LM : Libm float) fuel geom ray
         (data data' : @IntersectionData float),
    intersect fuel geom ray data = Some (true, data') ->
    PrimFloat.ltb (dist data') (float_of_int 0) = false
    /\ (is_num (dist data') ->
        PrimFloat.leb (float_of_int 0) (dist data') = true).
Proof.
  intros LM fuel geom ray data data' H.
  apply intersect_forward64 in H. split; [exact H|].
  intros Hn. now apply not_below_is_nonneg.
Qed.

(** * The comparison of [exact] *)

Arguments Rltb : simpl never.

Lemma Rltb_true a b : (a < b)%R -> Rltb a b = true.
Proof. unfold Rltb. destruct (Rlt_dec a b); tauto. Qed.

Lemma Rltb_false a b : (b <= a)%R -> Rltb a b = false.
Proof. unfold Rltb. destruct (Rlt_dec a b); [lra|reflexivity]. Qed.

(** * Runs in binary64 *)

Section Runs64.
Import Scene64.

(** C4: on a ray that starts on the plane and runs along it, the guard of
    [Plane::intersect] lets control through to the division although the
    divisor is zero (in binary64 and in real arithmetic alike); in binary64
    the quotient 0/0 is NaN, the test [mult > data.dist] is false on NaN,
    and the plane reports a hit at distance NaN. *)
Theorem C4_plane_divides_by_zero_on_grazing_ray :
  (plane_guard (float_of_int 0) grazing_ray = false
   /\ PrimFloat.eqb (plane_denominator grazing_ray) (float_of_int 0) = true
   /\ fst (Plane_intersect 1%N (float_of_int 0) grazing_ray probe) = true
   /\ PrimFloat.is_nan
        (dist (snd (Plane_intersect 1%N (float_of_int 0) grazing_ray probe)))
      = true)
  /\ (plane_guard 0%R SceneR.grazing_rayR = false
      /\ plane_denominator SceneR.grazing_rayR = 0%R).
Proof.
  split.
  - vm_compute. repeat split.
  - split.
    + cbv - [Rltb Ropp IZR Rdiv]. rewrite !Rltb_false by lra. reflexivity.
    + cbv - [Ropp IZR]. lra.
Qed.

(** C1: in the tree (A or B) and C the hit on cube A is enumerated for the
    left child of the root, but its owner is cube A, not the left child, so
    the sweep of the root flips the flag of the right child; the root then
    reports that hit although the ray never meets C. *)
Theorem C1_hit_of_nested_left_child_flips_right_flag :
  forall LM : Libm float,
    findAllIntersections (intersect 4 unionAB) 4 view_ray (float_of_int 0) []
    = Some [hitA]
    /\ findAllIntersections (intersect 4 cubeC) 4 view_ray (float_of_int 0) []
       = Some []
    /\ g hitA <> addr_of unionAB
    /\ (forall inL inR, flip unionAB hitA inL inR = (inL, negb inR))
    /\ intersect 4 root view_ray probe = Some (true, hitA).
Proof.
  intros LM. split; [|split; [|split; [|split]]].
  - vm_compute. reflexivity.
  - vm_compute. reflexivity.
  - vm_compute. discriminate.
  - intros inL inR. reflexivity.
  - vm_compute. reflexivity.
Qed.

(** C5, refuted as stated: for the sphere of radius 0.7 at the origin and
    the ray from (0,3,0) straight down, the hit is accepted and the
    argument of [asin] is above 1. *)
Lemma C5_asin_argument_above_one :
  ~ (forall (LM : Libm float) this center R ray
            (info info' : @IntersectionData float),
        Sphere_intersect this center R ray info = (true, info') ->
        PrimFloat.ltb (float_of_int 1) (sphere_asin_arg center R (p info'))
        = false
        /\ PrimFloat.ltb (sphere_asin_arg center R (p info'))
                         (float_of_int (-1))
           = false).
Proof.
  intros H.
  pose (lm := {| atan2 := fun _ _ : float => PrimFloat.zero;
                 asin := fun a : float => a |}).
  pose (r := @Sphere_intersect float binary64 lm 1%N (vec64 0 0 0) radius
               downward_ray probe).
  assert (E : r = (true, snd r)) by (vm_compute; reflexivity).
  destruct (H lm _ _ _ _ _ _ E) as [H1 _].
  vm_compute in H1. discriminate.
Qed.


(** C9, refuted as stated: for the unit sphere at the origin and the ray
    from (1e200, 0, 0) towards it, the discriminant is inf - inf = NaN,
    both roots are NaN, no test of lines 63-72 rejects NaN, and the sphere
    reports a hit whose [dist] is NaN: not a nonnegative number. *)
Lemma C9_sphere_writes_nan_dist :
  ~ (forall (LM : Libm float) fuel geom ray
            (data data' : @IntersectionData float),
        intersect fuel geom ray data = Some (true, data') ->
        PrimFloat.leb (float_of_int 0) (dist data') = true).
Proof.
  intros H.
  pose (r := @Sphere_intersect float binary64 libm_unused 7%N (vec64 0 0 0)
               (float_of_int 1) far_ray probe).
  assert (E : @intersect float binary64 libm_unused 0
                (Sphere 7%N (vec64 0 0 0) (float_of_int 1)) far_ray probe
              = Some (true, snd r)) by (vm_compute; reflexivity).
  apply H in E. vm_compute in E. discriminate.
Qed.

End Runs64.

(** * Runs of the statements *)

(** Deciding the comparisons of a closed run. *)
Ltac Rclosed :=
  rewrite ?Rdiv_opp_r; unfold Rabs; repeat destruct Rcase_abs; lra.
Ltac Rcompare :=
  repeat match goal with
  | |- context [Rltb ?a ?b] =>
    first [ rewrite (@Rltb_true a b) by Rclosed
          | rewrite (@Rltb_false a b) by Rclosed ]
  end.
Ltac Reval :=
  repeat (cbv - [Rltb Rplus Rminus Rmult Rdiv Ropp Rinv IZR Rabs R_sqrt.sqrt
                 Rtrigo1.PI Ratan.atan Ratan.asin R_atan2];
          Rcompare).
(** The square root of a closed expression whose value is 4. *)
Ltac Rsqrt4 :=
  match goal with
  | |- context [R_sqrt.sqrt ?e] =>
    replace e with (2 * 2)%R by lra; rewrite sqrt_square by lra
  end.

Section RunsR.
Import SceneR.
Local Open Scope R_scope.

Lemma ground_run :
  exists d,
    @intersect float binary64 Scene64.libm_unused 0 Scene64.ground
               Scene64.downward_ray probe = Some (true, d).
Proof. eexists. vm_compute. reflexivity. Qed.


Lemma ground_tie_run :
  exists d,
    @intersect float binary64 Scene64.libm_unused 0 Scene64.ground
               Scene64.downward_ray (set_dist fresh_data (float_of_int 3))
    = Some (true, d)
    /\ dist d = float_of_int 3.
Proof. eexists. vm_compute. split; reflexivity. Qed.

Lemma floor_run fuel (d : @IntersectionData R) :
  intersect fuel floor upward_ray d = Some (false, d).
Proof. Reval. reflexivity. Qed.

Lemma basement_run fuel (d : @IntersectionData R) :
  intersect fuel basement upward_ray d = Some (false, d).
Proof. Reval. reflexivity. Qed.

Lemma ceilings_run :
  exists d, intersect 2 ceilings upward_ray (record_at 1e99) = Some (true, d).
Proof. eexists. Reval. reflexivity. Qed.

Lemma unit_sphere_run :
  exists d,
    Sphere_intersect 7%N unit_center 1 upward_ray (record_at 1e99) = (true, d).
Proof.
  eexists.
  cbv - [Rltb Rplus Rminus Rmult Rdiv Ropp Rinv IZR R_sqrt.sqrt
         Rtrigo1.PI Ratan.atan Ratan.asin R_atan2].
  repeat Rsqrt4. Reval. reflexivity.
Qed.

Lemma unit_cube_run :
  exists d,
    Cube_intersect 8%N unit_center 2 upward_ray (record_at 1e99) = (true, d).
Proof.
  (* the three slab tests, one at a time *)
  assert (E1 : exists d1,
             intersectCubeSide 2 upward_ray unit_center (record_at 1e99)
             = (true, d1)).
  { eexists. Reval. reflexivity. }
  destruct E1 as [d1 E1].
  assert (E2 : cube_slab 2 1 0 2 upward_ray unit_center (true, d1)
               = (true, d1)).
  { Reval. reflexivity. }
  assert (E3 : cube_slab 2 0 2 1 upward_ray unit_center (true, d1)
               = (true, d1)).
  { Reval. reflexivity. }
  exists (set_g d1 8%N). unfold Cube_intersect.
  rewrite E1, E2, E3. reflexivity.
Qed.

(** C2, refuted as stated: a plane at exactly the distance the record
    already holds is accepted, and [dist] is left equal, not lowered. *)
Lemma C2_tie_is_accepted :
  ~ (forall (LM : Libm float) fuel geom ray
            (data data' : @IntersectionData float),
        intersect fuel geom ray data = Some (true, data') ->
        PrimFloat.ltb (dist data') (dist data) = true).
Proof.
  intros H. destruct ground_tie_run as (d & E & Hd).
  apply H in E. rewrite Hd in E. vm_compute in E. discriminate.
Qed.

Lemma C2_witness :
  exists d,
    @intersect float binary64 Scene64.libm_unused 0 Scene64.ground
               Scene64.downward_ray probe = Some (true, d)
    /\ PrimFloat.ltb (dist (@probe float binary64)) (dist d) = false.
Proof.
  destruct ground_run as (d & E). exists d.
  split; [exact E|].
  exact (proj1 (proj1 C2_successful_dist_not_greater Scene64.libm_unused
                      0%nat Scene64.ground Scene64.downward_ray probe d true
                      I E)).
Defined.

Lemma C3_witness :
  (intersect 0 floor upward_ray (record_at 7) = Some (false, record_at 7)
   /\ record_at 7 = record_at 7)
  /\ (intersect 1 floor upward_ray probe = Some (false, probe)
      /\ intersect 1 basement upward_ray probe = Some (false, probe)
      /\ intersect 1 floors upward_ray (record_at 7)
         = Some (false, record_at 7)).
Proof.
  split.
  - split; [apply floor_run|].
    exact (proj1 (@C3_no_hit_leaves_record_unmodified R exact exact_libm)
                 _ _ _ _ _ (floor_run 0 (record_at 7))).
  - split; [apply floor_run|split; [apply basement_run|]].
    exact (proj2 (@C3_no_hit_leaves_record_unmodified R exact exact_libm)
                 0%nat 6%N floor basement orb upward_ray (record_at 7)
                 probe probe (floor_run 1 probe) (basement_run 1 probe)).
Defined.

Lemma C5_witness :
  exists d,
    Sphere_intersect 7%N unit_center 1 upward_ray (record_at 1e99) = (true, d)
    /\ v d = 1 - (Rtrigo1.PI / 2
                  + Ratan.asin ((y (p d) - y unit_center) / 1)) / Rtrigo1.PI.
Proof.
  destruct unit_sphere_run as (d & E). exists d.
  split; [exact E|].
  exact (@C5_asin_argument_is_raw_quotient R exact exact_libm _ _ _ _ _ _ E).
Defined.

Lemma C7_witness :
  sphere_sol (Scene64.vec64 0 0 0) Scene64.radius Scene64.downward_ray
  = Some (smaller_root (Scene64.vec64 0 0 0) Scene64.radius
                       Scene64.downward_ray)
  /\ fst (@Sphere_intersect float binary64 Scene64.libm_unused 7%N
            (Scene64.vec64 0 0 0) Scene64.radius Scene64.downward_ray probe)
     = true
  /\ dist (snd (@Sphere_intersect float binary64 Scene64.libm_unused 7%N
                  (Scene64.vec64 0 0 0) Scene64.radius Scene64.downward_ray
                  probe))
     = smaller_root (Scene64.vec64 0 0 0) Scene64.radius Scene64.downward_ray.
Proof.
  destruct (proj1 C7_sphere_root_selection float binary64
              Scene64.libm_unused 7%N (Scene64.vec64 0 0 0) Scene64.radius
              Scene64.downward_ray probe)
    as (E & _ & Hsol).
  assert (Hs : sphere_root_spec (Scene64.vec64 0 0 0) Scene64.radius
                                Scene64.downward_ray
               = Some (smaller_root (Scene64.vec64 0 0 0) Scene64.radius
                                    Scene64.downward_ray))
    by (vm_compute; reflexivity).
  split; [rewrite E; exact Hs|].
  specialize (Hsol _ Hs).
  assert (Hd : ltb (dist (@probe float binary64))
                   (smaller_root (Scene64.vec64 0 0 0) Scene64.radius
                                 Scene64.downward_ray)
               = false) by (vm_compute; reflexivity).
  rewrite Hd in Hsol. exact Hsol.
Defined.


Lemma C9_witness :
  @intersect float binary64 Scene64.libm_unused 0 Scene64.ground
             Scene64.downward_ray probe = Some (true, Scene64.hitG)
  /\ PrimFloat.ltb (dist Scene64.hitG) (float_of_int 0) = false
  /\ PrimFloat.leb (float_of_int 0) (dist Scene64.hitG) = true.
Proof.
  assert (E : @intersect float binary64 Scene64.libm_unused 0 Scene64.ground
                Scene64.downward_ray probe = Some (true, Scene64.hitG))
    by (vm_compute; reflexivity).
  split; [exact E|].
  destruct (@C9_successful_dist_not_below_zero Scene64.libm_unused 0%nat
              Scene64.ground Scene64.downward_ray probe Scene64.hitG E)
    as [H1 H2].
  split; [exact H1|]. apply H2. vm_compute. reflexivity.
Defined.

Lemma C10_witness :
  exists d,
    intersect 2 ceilings upward_ray (record_at 1e99) = Some (true, d)
    /\ In (g d) [1%N; 5%N]
    /\ g d <> 4%N.
Proof.
  destruct ceilings_run as (d & E). exists d.
  split; [exact E|].
  destruct (@C10_csg_owner_is_primitive_leaf R exact exact_libm _ _ _ _ _ _
              _ _ E) as (_ & Hin & Hne).
  split; [exact Hin|]. apply Hne. cbn. intuition discriminate.
Defined.

End RunsR.

(** * Further properties of the code *)

(** ** Following the control flow (every instance) *)

Section ControlFlowMore.

Context {T : Type} {SC : Scalar T} {LM : Libm T}.
Local Open Scope scalar_scope.

(** What a slab test returns: the record as given, or the record of a
    face that is a candidate. *)
Lemma intersectCubeSide_result side ray center (data : IntersectionData) :
  intersectCubeSide side ray center data = (false, data)
  \/ exists sd,
       is_side sd
       /\ (fabs (y (dir ray)) <? lit_1e_9) = false
       /\ face_candidate (side * lit_0_5) ray center sd = true
       /\ intersectCubeSide side ray center data
          = (true, face_record (side * lit_0_5) ray center sd (g data)).
Proof.
  rewrite intersectCubeSide_eq.
  destruct (fabs (y (dir ray)) <? lit_1e_9) eqn:Ef; [now left|].
  cbv zeta. rewrite !cube_face_eq.
  destruct (face_candidate (side * lit_0_5) ray center (-1)) eqn:C1;
    destruct (face_candidate (side * lit_0_5) ray center 1) eqn:C2;
    cbn [andb fst snd];
    repeat match goal with
           | |- context [if negb ?c then _ else _] =>
             destruct c; cbn [negb fst snd dist g face_record]
           end;
    try (now left);
    right;
    first [ exists 1%Z; split; [now right|]; repeat split; assumption
          | exists (-1)%Z; split; [now left|]; repeat split; assumption ].
Qed.

(** The same for the slab tests of lines 117 and 124, in the frames
    (1, 0, 2) of the x faces and (0, 2, 1) of the z faces, after
    [unproject]. *)
Lemma cube_slab_result side ray center ax (st : bool * IntersectionData) :
  let a := match ax with AxisX => 1 | _ => 0 end%nat in
  let b := match ax with AxisX => 0 | AxisY => 1 | AxisZ => 2 end%nat in
  let c := match ax with AxisZ => 1 | _ => 2 end%nat in
  ax <> AxisY ->
  cube_slab side a b c ray center st = st
  \/ exists sd d,
       cube_slab side a b c ray center st = (true, d)
       /\ g d = g (snd st)
       /\ hit_of_face center side ray ax sd d.
Proof.
  intros a b c Hax. unfold cube_slab.
  destruct (intersectCubeSide_result side (project_ray ray a b c)
              (project center a b c) (snd st)) as [E|(sd & Hsd & Ef & Hc & E)];
    rewrite E.
  - left. now destruct st.
  - right. exists sd. eexists. split; [reflexivity|].
    split; [reflexivity|].
    unfold hit_of_face, axis_candidate, axis_mult.
    destruct ax; try congruence; subst a b c; cbn [frame_ray frame_center];
      rewrite Ef, Hc;
      (split; [assumption|]); (split; [reflexivity|]);
      destruct ray as [[sx sy sz] [dx dy dz]], center as [cx cy cz];
      repeat split.
Qed.

Lemma intersectCubeSide_hit side ray center (data d : IntersectionData) :
  intersectCubeSide side ray center data = (true, d) ->
  g d = g data /\ exists sd, hit_of_face center side ray AxisY sd d.
Proof.
  intros E.
  destruct (intersectCubeSide_result side ray center data)
    as [E'|(sd & Hsd & Ef & Hc & E')]; rewrite E' in E; [discriminate|].
  injection E as <-. split; [reflexivity|]. exists sd.
  unfold hit_of_face, axis_candidate, axis_mult. cbn [frame_ray frame_center].
  rewrite Ef, Hc. repeat split. assumption.
Qed.

(** The record of a hit of [Cube::intersect] is the record of one face. *)
Lemma Cube_intersect_hit this center side ray (data d' : IntersectionData) :
  Cube_intersect this center side ray data = (true, d') ->
  g d' = this /\ exists ax sd, hit_of_face center side ray ax sd d'.
Proof.
  unfold Cube_intersect.
  set (st1 := intersectCubeSide side ray center data).
  assert (H1 : fst st1 = true ->
               exists ax sd, hit_of_face center side ray ax sd (snd st1)).
  { intros Hf. destruct st1 as [f1 d1] eqn:E1. cbn in Hf. subst f1.
    apply intersectCubeSide_hit in E1. destruct E1 as (_ & sd & H).
    exists AxisY, sd. exact H. }
  clearbody st1.
  set (st2 := cube_slab side 1 0 2 ray center st1).
  assert (H2 : fst st2 = true ->
               exists ax sd, hit_of_face center side ray ax sd (snd st2)).
  { destruct (@cube_slab_result side ray center AxisX st1 ltac:(discriminate))
      as [E|(sd & d & E & _ & H)]; fold st2 in E; rewrite E.
    - exact H1.
    - intros _. exists AxisX, sd. exact H. }
  clearbody st2. clear H1 st1.
  set (st3 := cube_slab side 0 2 1 ray center st2).
  assert (H3 : fst st3 = true ->
               exists ax sd, hit_of_face center side ray ax sd (snd st3)).
  { destruct (@cube_slab_result side ray center AxisZ st2 ltac:(discriminate))
      as [E|(sd & d & E & _ & H)]; fold st3 in E; rewrite E.
    - exact H2.
    - intros _. exists AxisZ, sd. exact H. }
  clearbody st3. clear H2 st2.
  destruct st3 as [[] d3]; cbn [fst snd] in *; [|discriminate].
  intros E. injection E as <-. split; [reflexivity|].
  destruct (H3 eq_refl) as (ax & sd & H). exists ax, sd. exact H.
Qed.

(** X1: a hit of a primitive lies on the ray at the distance recorded, and
    is owned by the primitive: [data.p = ray.start + ray.dir * data.dist]
    and [data.g = this], for [Plane], [Sphere] and [Cube] alike (for the
    cube, after the point has been taken back from the frame of the slab
    test).  For every instance of the arithmetic. *)
Theorem primitive_hit_is_on_ray_at_dist :
  (forall this py ray (data d' : IntersectionData),
      Plane_intersect this py ray data = (true, d') ->
      p d' = ray_at ray (dist d') /\ g d' = this)
  /\ (forall this center R ray (data d' : IntersectionData),
         Sphere_intersect this center R ray data = (true, d') ->
         p d' = ray_at ray (dist d') /\ g d' = this)
  /\ (forall this center side ray (data d' : IntersectionData),
         Cube_intersect this center side ray data = (true, d') ->
         p d' = ray_at ray (dist d') /\ g d' = this).
Proof.
  split; [|split].
  - intros this py ray data d'. unfold Plane_intersect.
    destruct (plane_guard py ray); [discriminate|].
    destruct (plane_mult py ray >? dist data); [discriminate|].
    intros E. injection E as <-. split; reflexivity.
  - intros this center R ray data d'. unfold Sphere_intersect.
    destruct (sphere_sol center R ray) as [sol|]; [|discriminate].
    destruct (sol >? dist data); [discriminate|].
    intros E. injection E as <-. split; reflexivity.
  - intros this center side ray data d' E.
    apply Cube_intersect_hit in E.
    destruct E as (Hg & ax & sd & _ & _ & _ & Hp & _). split; assumption.
Qed.

(** X2: on a hit of a cube the normal is the unit vector of one axis,
    towards the side of the face (-1 or +1), and [u], [v] are the offsets
    of the hit point from the centre along the two other axes: (y, z) for a
    face across x, (x, z) across y, (x, y) across z.  For every instance of
    the arithmetic. *)
Theorem Cube_hit_normal_and_offsets :
  forall this center side ray (data d' : IntersectionData),
    Cube_intersect this center side ray data = (true, d') ->
    exists ax sd,
      is_side sd
      /\ normal d' = axis_vector ax sd
      /\ (u d', v d') = face_offsets ax center (p d').
Proof.
  intros this center side ray data d' E.
  apply Cube_intersect_hit in E.
  destruct E as (_ & ax & sd & Hsd & _ & _ & _ & Hn & Huv).
  exists ax, sd. auto.
Qed.

(** X3: a ray none of whose direction components reaches 1e-9 in magnitude
    (the zero direction among them) meets no cube: the three slab tests all
    leave at line 86, and the record is returned as given. *)
Theorem Cube_misses_degenerate_direction :
  forall this center side ray (data : IntersectionData),
    (fabs (x (dir ray)) <? lit_1e_9) = true ->
    (fabs (y (dir ray)) <? lit_1e_9) = true ->
    (fabs (z (dir ray)) <? lit_1e_9) = true ->
    Cube_intersect this center side ray data = (false, data).
Proof.
  intros this center side ray data Hx Hy Hz.
  unfold Cube_intersect, cube_slab, intersectCubeSide.
  cbn [project_ray dir project comp y snd fst]. rewrite Hx, Hy, Hz.
  reflexivity.
Qed.

Lemma leaf_hit_point fuel geom ray (data d' : IntersectionData) :
  is_leaf geom -> intersect fuel geom ray data = Some (true, d') ->
  p d' = ray_at ray (dist d').
Proof.
  destruct geom as [this py|this center R|this center side|]; cbn [is_leaf intersect];
    intros Hl E; [| | |contradiction]; injection E as E.
  - revert E. unfold Plane_intersect.
    destruct (plane_guard py ray); [discriminate|].
    destruct (plane_mult py ray >? dist data); [discriminate|].
    intros E. now injection E as <-.
  - revert E. unfold Sphere_intersect.
    destruct (sphere_sol center R ray) as [sol|]; [|discriminate].
    destruct (sol >? dist data); [discriminate|].
    intros E. now injection E as <-.
  - apply Cube_intersect_hit in E.
    now destruct E as (_ & ax & sd & _ & _ & _ & Hp & _).
Qed.

(** While no record is owned by the left child, the sweep flips the right
    flag only. *)
Lemma sweep_left_flag_fixed left boolOp (data d' : IntersectionData) all :
  (forall h, In h all -> N.eqb (g h) (addr_of left) = false) ->
  forall inL inR,
    sweep left boolOp data all inL inR = (true, d') ->
    exists inR', boolOp inL inR' = true.
Proof.
  induction all as [|cur rest IH]; intros Hall inL inR; cbn [sweep];
    [discriminate|].
  unfold flip. rewrite (Hall cur) by now left.
  destruct (boolOp inL (negb inR)) eqn:Eb.
  - intros _. now exists (negb inR).
  - apply IH. intros h Hh. apply Hall. now right.
Qed.

(** X4: line 174 compares the owner of a record, the primitive that was
    hit, with the left child.  When the identity of the left child is not
    that of a primitive of the tree (the child is a CSG node of its own
    identity), the comparison fails for every record: the flag of the left
    child keeps the parity it started from, and the node can only report a
    hit at which [boolOp] holds of that parity. *)
Theorem nested_left_child_flag_never_flips :
  forall fuel this left right boolOp ray (data d' : IntersectionData) Ls,
    ~ In (addr_of left) (primitives left ++ primitives right) ->
    findAllIntersections (intersect fuel left) fuel ray (of_int 0) []
    = Some Ls ->
    intersect fuel (CsgOp this left right boolOp) ray data = Some (true, d') ->
    exists inR, boolOp (Nat.odd (length Ls)) inR = true.
Proof.
  intros fuel this left right boolOp ray data d' Ls Hnot EL E.
  cbn [intersect] in E. rewrite EL in E.
  destruct (findAllIntersections (intersect fuel right) fuel ray (of_int 0) [])
    as [Rs|] eqn:ER; [|discriminate].
  injection E as E. unfold CsgOp_sweep, initial_inside in E.
  rewrite !parity_is_odd in E.
  eapply sweep_left_flag_fixed; [|exact E].
  intros h Hh. apply (proj1 (sort_by_dist_In h _)) in Hh.
  apply N.eqb_neq. intros Heq. apply Hnot. rewrite <- Heq.
  apply in_or_app. apply in_app_or in Hh. destruct Hh as [Hh|Hh]; [left|right].
  - pose proof (@findAllIntersections_owner T SC
                  (fun a => In a (primitives left)) (intersect fuel left)
                  (fun r d d0 => @intersect_owner T SC LM fuel left r d d0)
                  fuel ray (of_int 0) Ls EL) as HF.
    rewrite Forall_forall in HF. now apply HF.
  - pose proof (@findAllIntersections_owner T SC
                  (fun a => In a (primitives right)) (intersect fuel right)
                  (fun r d d0 => @intersect_owner T SC LM fuel right r d d0)
                  fuel ray (of_int 0) Rs ER) as HF.
    rewrite Forall_forall in HF. now apply HF.
Qed.

Lemma left_hits_app (left : @Geometry T) (l l' : list IntersectionData) :
  left_hits left (l ++ l') = (left_hits left l + left_hits left l')%nat.
Proof. unfold left_hits. now rewrite filter_app, length_app. Qed.

Lemma right_hits_app (left : @Geometry T) (l l' : list IntersectionData) :
  right_hits left (l ++ l') = (right_hits left l + right_hits left l')%nat.
Proof. unfold right_hits. now rewrite filter_app, length_app. Qed.

Lemma hits_Permutation (left : @Geometry T) (l l' : list IntersectionData) :
  Permutation l l' ->
  left_hits left l = left_hits left l'
  /\ right_hits left l = right_hits left l'.
Proof.
  intros H. unfold left_hits, right_hits.
  split; apply Permutation_length; induction H; cbn;
    repeat match goal with
           | |- context [if ?c then _ else _] => destruct c; cbn
           end;
    try solve [constructor; auto | auto | eapply perm_trans; eauto].
Qed.

(** The flags after the sweep has gone through [pre]: each flag has been
    flipped once for every record attributed to its child. *)
Lemma sweep_first_hit left boolOp (data d' : IntersectionData) :
  forall all inL inR,
    sweep left boolOp data all inL inR = (true, d') ->
    exists pre post,
      all = pre ++ d' :: post
      /\ boolOp (xorb inL (Nat.odd (left_hits left (pre ++ [d']))))
                (xorb inR (Nat.odd (right_hits left (pre ++ [d'])))) = true
      /\ forall pre1 h rest,
           pre = pre1 ++ h :: rest ->
           boolOp (xorb inL (Nat.odd (left_hits left (pre1 ++ [h]))))
                  (xorb inR (Nat.odd (right_hits left (pre1 ++ [h]))))
           = false.
Proof.
  induction all as [|cur rest IH]; intros inL inR; cbn [sweep];
    [discriminate|].
  assert (Hflip : flip left cur inL inR
                  = (xorb inL (Nat.odd (left_hits left [cur])),
                     xorb inR (Nat.odd (right_hits left [cur])))).
  { unfold flip, left_hits, right_hits. cbn [filter].
    destruct (N.eqb (g cur) (addr_of left)); cbn;
      now rewrite ?xorb_true_r, ?xorb_false_r. }
  rewrite Hflip.
  destruct (boolOp _ _) eqn:Eb.
  - destruct (dist cur >? dist data); [discriminate|].
    intros E. injection E as <-. exists [], rest. split; [reflexivity|].
    split; [exact Eb|]. intros [] ? ? ?; discriminate.
  - intros E. apply IH in E. destruct E as (pre & post & -> & Hb & Hfirst).
    exists (cur :: pre), post. split; [reflexivity|].
    assert (Hx : forall l,
               xorb (xorb inL (Nat.odd (left_hits left [cur])))
                    (Nat.odd (left_hits left l))
               = xorb inL (Nat.odd (left_hits left (cur :: l)))
               /\ xorb (xorb inR (Nat.odd (right_hits left [cur])))
                       (Nat.odd (right_hits left l))
                  = xorb inR (Nat.odd (right_hits left (cur :: l)))).
    { intros l. change (cur :: l) with ([cur] ++ l).
      rewrite left_hits_app, right_hits_app, !Nat.odd_add, !xorb_assoc.
      split; reflexivity. }
    split.
    + cbn [app]. rewrite <- (proj1 (Hx _)), <- (proj2 (Hx _)). exact Hb.
    + intros [|h0 pre1] h rest0 Hp; injection Hp as <- Hp.
      * exact Eb.
      * cbn [app]. rewrite <- (proj1 (Hx _)), <- (proj2 (Hx _)).
        eapply Hfirst. exact Hp.
Qed.


Lemma parity_rest n a b :
  n = (a + b)%nat -> xorb (Nat.odd n) (Nat.odd a) = Nat.odd b.
Proof.
  intros ->. rewrite Nat.odd_add.
  now destruct (Nat.odd a), (Nat.odd b).
Qed.

Lemma hits_of_children (left : @Geometry T) (Ls Rs : list IntersectionData) :
  Forall (fun h => g h = addr_of left) Ls ->
  Forall (fun h => g h <> addr_of left) Rs ->
  left_hits left (Ls ++ Rs) = length Ls
  /\ right_hits left (Ls ++ Rs) = length Rs.
Proof.
  intros HL HR. rewrite left_hits_app, right_hits_app.
  unfold left_hits, right_hits.
  assert (EL : filter (fun h => N.eqb (g h) (addr_of left)) Ls = Ls
               /\ filter (fun h => negb (N.eqb (g h) (addr_of left))) Ls = []).
  { induction HL as [|h l Hh _ [IH1 IH2]]; [now split|]. cbn [filter].
    rewrite (proj2 (N.eqb_eq _ _) Hh). cbn [negb]. now rewrite IH1, IH2. }
  assert (ER : filter (fun h => N.eqb (g h) (addr_of left)) Rs = []
               /\ filter (fun h => negb (N.eqb (g h) (addr_of left))) Rs = Rs).
  { induction HR as [|h l Hh _ [IH1 IH2]]; [now split|]. cbn [filter].
    rewrite (proj2 (N.eqb_neq _ _) Hh). cbn [negb]. now rewrite IH1, IH2. }
  destruct EL as [-> ->], ER as [-> ->]. cbn [length]. lia.
Qed.

(** X5: when the left child is a primitive whose identity no primitive of
    the right child shares, line 174 attributes every record to the child
    it was enumerated for, and the flags count crossings: the node reports
    the first record, in the sorted order, after which the numbers of left
    and of right records still ahead have parities of which [boolOp]
    holds. *)
Theorem primitive_left_child_sweep_counts_crossings :
  forall fuel this left right boolOp ray (data d' : IntersectionData) Ls Rs,
    is_leaf left -> ~ In (addr_of left) (primitives right) ->
    findAllIntersections (intersect fuel left) fuel ray (of_int 0) []
    = Some Ls ->
    findAllIntersections (intersect fuel right) fuel ray (of_int 0) []
    = Some Rs ->
    intersect fuel (CsgOp this left right boolOp) ray data = Some (true, d') ->
    Forall (fun h => g h = addr_of left) Ls
    /\ Forall (fun h => g h <> addr_of left) Rs
    /\ exists pre post,
         sort_by_dist (Ls ++ Rs) = pre ++ d' :: post
         /\ boolOp (Nat.odd (left_hits left post))
                   (Nat.odd (right_hits left post)) = true
         /\ forall pre1 h rest,
              pre = pre1 ++ h :: rest ->
              boolOp (Nat.odd (left_hits left (rest ++ d' :: post)))
                     (Nat.odd (right_hits left (rest ++ d' :: post)))
              = false.
Proof.
  intros fuel this left right boolOp ray data d' Ls Rs Hleaf Hnot EL ER E.
  assert (HL : Forall (fun h => g h = addr_of left) Ls).
  { pose proof (@findAllIntersections_owner T SC
                  (fun a => In a (primitives left)) (intersect fuel left)
                  (fun r d d0 => @intersect_owner T SC LM fuel left r d d0)
                  fuel ray (of_int 0) Ls EL) as HF.
    eapply Forall_impl; [|exact HF]. cbn beta. intros h Hh.
    destruct left; cbn in Hh, Hleaf |- *; intuition. }
  assert (HR : Forall (fun h => g h <> addr_of left) Rs).
  { pose proof (@findAllIntersections_owner T SC
                  (fun a => In a (primitives right)) (intersect fuel right)
                  (fun r d d0 => @intersect_owner T SC LM fuel right r d d0)
                  fuel ray (of_int 0) Rs ER) as HF.
    eapply Forall_impl; [|exact HF]. cbn beta. intros h Hh Heq.
    apply Hnot. now rewrite <- Heq. }
  split; [exact HL|]. split; [exact HR|].
  cbn [intersect] in E. rewrite EL, ER in E. injection E as E.
  unfold CsgOp_sweep, initial_inside in E. rewrite !parity_is_odd in E.
  apply sweep_first_hit in E. destruct E as (pre & post & Hall & Hb & Hfirst).
  exists pre, post. split; [exact Hall|].
  destruct (@hits_of_children left Ls Rs HL HR) as [HcL HcR].
  destruct (@hits_Permutation left _ _ (sort_by_dist_Permutation (Ls ++ Rs)))
    as [HpL HpR].
  rewrite <- HpL in HcL. rewrite <- HpR in HcR. rewrite Hall in HcL, HcR.
  split.
  - change (pre ++ d' :: post) with (pre ++ [d'] ++ post) in HcL, HcR.
    rewrite app_assoc, left_hits_app in HcL.
    rewrite app_assoc, right_hits_app in HcR.
    now rewrite <- (@parity_rest _ _ _ (eq_sym HcL)),
      <- (@parity_rest _ _ _ (eq_sym HcR)).
  - intros pre1 h rest Hp. specialize (Hfirst pre1 h rest Hp). subst pre.
    rewrite <- app_assoc in HcL, HcR.
    change (pre1 ++ (h :: rest) ++ d' :: post)
      with (pre1 ++ [h] ++ (rest ++ d' :: post)) in HcL, HcR.
    rewrite app_assoc, left_hits_app in HcL.
    rewrite app_assoc, right_hits_app in HcR.
    now rewrite <- (@parity_rest _ _ _ (eq_sym HcL)),
      <- (@parity_rest _ _ _ (eq_sym HcR)).
Qed.

End ControlFlowMore.

(** ** In binary64 *)

Section Binary64More.
Local Open Scope Z_scope.

Lemma SFltb_nan_l a : SFltb S754_nan a = false.
Proof. reflexivity. Qed.
Lemma SFltb_nan_r a : SFltb a S754_nan = false.
Proof. now destruct a as [| | |[]]. Qed.
Lemma SFadd_nan_r a : SF64add a S754_nan = S754_nan.
Proof. now destruct a. Qed.
Lemma SFmul_nan_r a : SF64mul a S754_nan = S754_nan.
Proof. now destruct a. Qed.
Lemma SFdiv_by_zero a s :
  zero_or_nan a -> SF64div a (S754_zero s) = S754_nan.
Proof. now destruct a. Qed.


(** On such a ray the guard of line 34 lets the ray through, the quotient
    of line 39 is NaN, the test of line 42 does not reject it, and the
    point written has a NaN y coordinate. *)
Lemma Plane_grazing_hit this py (ray : @Ray float)
    (data : @IntersectionData float) :
  grazes64 py ray ->
  exists d', Plane_intersect this py ray data = (true, d')
             /\ is_nan64 (dist d') /\ is_nan64 (y (p d')).
Proof.
  intros Hg.
  assert (G : plane_guard py ray = false).
  { unfold plane_guard. cbn [ltb opp lit_1e_9 binary64].
    destruct Hg as [Hn|(H1 & H2 & _)].
    - unfold is_nan64 in Hn.
      rewrite (ltb_spec py), (ltb_spec (y (start ray))), Hn.
      rewrite SFltb_nan_l, SFltb_nan_r. reflexivity.
    - rewrite H1, H2. reflexivity. }
  assert (M : is_nan64 (plane_mult py ray)).
  { unfold is_nan64, plane_mult, plane_denominator.
    cbn [sub div opp binary64]. rewrite div_spec, sub_spec, opp_spec.
    destruct Hg as [Hn|(H1 & H2 & Hz)].
    - unfold is_nan64 in Hn. rewrite Hn. reflexivity.
    - rewrite ltb_spec in H1, H2.
      destruct (@SFsub_sign (Prim2SF (y (start ray))) (Prim2SF py)
                  (Prim2SF_valid _) (Prim2SF_valid _)) as (_ & _ & Hon).
      specialize (Hon H2 H1). unfold is_zero64 in Hz.
      destruct (Prim2SF (y (dir ray))) as [sz| | |]; try contradiction.
      cbn [SFopp]. apply SFdiv_by_zero. exact Hon. }
  unfold Plane_intersect. rewrite G.
  replace (ltb (dist data) (plane_mult py ray)) with false.
  - eexists. split; [reflexivity|]. cbn [dist p]. split; [exact M|].
    unfold is_nan64 in *. unfold vadd, vscale. cbn [y add mul binary64].
    rewrite add_spec, mul_spec, M, SFmul_nan_r, SFadd_nan_r. reflexivity.
  - symmetry. cbn [ltb binary64]. unfold is_nan64 in M.
    rewrite ltb_spec, M. apply SFltb_nan_r.
Qed.

Lemma findAllIntersections_Plane_grazing (LM : Libm float) fuel0 this py :
  forall fuel (ray : @Ray float) cl l,
    grazes64 py ray ->
    findAllIntersections (intersect fuel0 (Plane this py)) fuel ray cl l
    = None.
Proof.
  induction fuel as [|fuel IH]; intros ray cl l Hg; [reflexivity|].
  cbn [findAllIntersections intersect].
  destruct (@Plane_grazing_hit this py ray (set_dist fresh_data lit_1e99) Hg)
    as (d' & E & _ & Hp).
  rewrite E. apply IH. left. unfold is_nan64 in *.
  cbn [start set_dist p]. unfold vadd, vscale. cbn [y add binary64].
  rewrite add_spec, Hp. reflexivity.
Qed.

Lemma intersect_CsgOp_eq (LM : Libm float) fuel node left_ right_ boolOp
    (ray : @Ray float) data :
  intersect fuel (CsgOp node left_ right_ boolOp) ray data
  = match findAllIntersections (intersect fuel left_) fuel ray (of_int 0) []
    with
    | None => None
    | Some L =>
      match
        findAllIntersections (intersect fuel right_) fuel ray (of_int 0) []
      with
      | None => None
      | Some R => Some (CsgOp_sweep left_ boolOp L R data)
      end
    end.
Proof. reflexivity. Qed.

(** X18: when a ray starts on a plane and runs along it, or has a NaN
    origin, the loop of [findAllIntersections] never reaches its [break]:
    every probe reports a hit whose point is NaN, from which the next probe
    starts.  So the enumeration of the plane's hits does not end within any
    number of iterations, and neither does [CsgOp::intersect] on a node
    with the plane as a child (binary64). *)
Theorem Plane_enumeration_never_ends :
  forall (LM : Libm float) this py (ray : @Ray float),
    grazes64 py ray ->
    (forall fuel0 fuel cl l,
        findAllIntersections (intersect fuel0 (Plane this py)) fuel ray cl l
        = None)
    /\ (forall fuel node other boolOp data,
           intersect fuel (CsgOp node (Plane this py) other boolOp) ray data
           = None
           /\ intersect fuel (CsgOp node other (Plane this py) boolOp) ray data
              = None).
Proof.
  intros LM this py ray Hg. split.
  - intros fuel0 fuel cl l. now apply findAllIntersections_Plane_grazing.
  - intros fuel node other boolOp data. rewrite !intersect_CsgOp_eq. split.
    + now rewrite findAllIntersections_Plane_grazing.
    + rewrite findAllIntersections_Plane_grazing by exact Hg.
      now destruct (findAllIntersections (intersect fuel other) _ _ _ _).
Qed.


(** X19: on finite inputs the distance a plane writes is NaN exactly on
    the rays above: off the plane the guard of line 34 keeps the divisor of
    line 39 at least 1e-9 in magnitude, and on the plane a divisor that is
    not zero gives the quotient zero (binary64). *)
Theorem Plane_dist_is_nan_only_when_grazing :
  forall this py (ray : @Ray float) (data d' : @IntersectionData float),
    finite64 (y (start ray)) -> finite64 py -> finite64 (y (dir ray)) ->
    Plane_intersect this py ray data = (true, d') ->
    (grazes64 py ray -> is_nan64 (dist d'))
    /\ (~ grazes64 py ray -> is_num (dist d')).
Proof.
  intros this py ray data d' Fs Fp Fd E. split.
  - intros Hg.
    destruct (@Plane_grazing_hit this py ray data Hg) as (d & E' & Hn & _).
    rewrite E' in E. injection E as <-. exact Hn.
  - intros Hng. revert E. unfold Plane_intersect.
    destruct (plane_guard py ray) eqn:G; [discriminate|].
    destruct (ltb (dist data) (plane_mult py ray)); [discriminate|].
    intros E. injection E as <-. cbn [dist].
    unfold is_num, plane_mult, plane_denominator.
    cbn [sub div opp binary64]. rewrite div_spec, sub_spec, opp_spec.
    apply SFdiv_not_nan.
    + apply SFsub_not_nan; [exact Fs|]. now apply finite64_is_num.
    + assert (Hnz : nonzero_finite (Prim2SF (y (dir ray))) = true).
      { revert G. unfold plane_guard. cbn [ltb opp lit_1e_9 binary64].
        destruct (PrimFloat.ltb py (y (start ray))) eqn:E1; cbn [andb orb].
        - rewrite (ltb_spec _ (y (dir ray))), opp_spec.
          change (Prim2SF 0x1.12e0be826d695p-30)
            with (S754_finite false 4835703278458517 (-82)).
          unfold finite64 in Fd.
          destruct (Prim2SF (y (dir ray))) as [sz|sz| |sz mz ez];
            try discriminate; first [now intros _|cbn; discriminate].
        - destruct (PrimFloat.ltb (y (start ray)) py) eqn:E2; cbn [andb].
          + rewrite (ltb_spec (y (dir ray))).
            change (Prim2SF 0x1.12e0be826d695p-30)
              with (S754_finite false 4835703278458517 (-82)).
            unfold finite64 in Fd.
            destruct (Prim2SF (y (dir ray))) as [sz|sz| |sz mz ez];
              try discriminate; first [now intros _|cbn; discriminate].
          + intros _. unfold finite64 in Fd.
            destruct (Prim2SF (y (dir ray))) as [sz|sz| |sz mz ez] eqn:Ed;
              try discriminate; [|reflexivity].
            exfalso. apply Hng. right. repeat split; try assumption.
            unfold is_zero64. now rewrite Ed. }
      destruct (Prim2SF (y (dir ray))); try discriminate. reflexivity.
Qed.

(** X20: on finite inputs a cube never writes NaN to [dist]: a slab is
    only divided through when its direction component is at least 1e-9 in
    magnitude (binary64). *)
Theorem Cube_dist_stays_a_number :
  forall this center side (ray : @Ray float)
         (data : @IntersectionData float),
    finite_ray ray -> finite_vec center -> finite64 side ->
    is_num (dist data) ->
    is_num (dist (snd (Cube_intersect this center side ray data))).
Proof.
  intros this center side ray data Fr Fc Fs Fd.
  destruct (@Cube_intersect_slabs64 center side ray data Fr Fc Fs Fd)
    as (_ & _ & (Hn & _)).
  unfold Cube_intersect.
  destruct (fst (cube_slab side 0 2 1 ray center _)); exact Hn.
Qed.

Lemma is_zero_zero_or_nan a : is_zero a -> zero_or_nan a.
Proof. now destruct a. Qed.

Lemma SFmul_zero a b : is_zero a -> is_zero b -> is_zero (SF64mul a b).
Proof. now destruct a, b. Qed.

Lemma SFadd_zero a b : is_zero a -> is_zero b -> is_zero (SF64add a b).
Proof.
  destruct a as [[]| | |], b as [[]| | |]; intros Ha Hb; try contradiction;
    exact I.
Qed.

Lemma SFmul_zero_or_nan_r a b : zero_or_nan b -> zero_or_nan (SF64mul a b).
Proof. destruct a, b; intros Hb; try contradiction; exact I. Qed.

Lemma SFmul_zero_or_nan_l a b : zero_or_nan a -> zero_or_nan (SF64mul a b).
Proof. destruct a, b; intros Ha; try contradiction; exact I. Qed.

Lemma SFadd_zero_or_nan a b :
  zero_or_nan a -> zero_or_nan b -> zero_or_nan (SF64add a b).
Proof.
  destruct a as [[]| | |], b as [[]| | |]; intros Ha Hb; try contradiction;
    exact I.
Qed.

Lemma SFsub_zero_or_nan a b :
  zero_or_nan a -> zero_or_nan b -> zero_or_nan (SF64sub a b).
Proof.
  destruct a as [[]| | |], b as [[]| | |]; intros Ha Hb; try contradiction;
    exact I.
Qed.

Lemma SFopp_zero_or_nan a : zero_or_nan a -> zero_or_nan (SFopp a).
Proof. now destruct a. Qed.

Lemma SFsqrt_zero_or_nan a : zero_or_nan a -> zero_or_nan (SF64sqrt a).
Proof. now destruct a. Qed.

Lemma SFdiv_zero_by_zero a b :
  zero_or_nan a -> is_zero b -> SF64div a b = S754_nan.
Proof. now destruct a, b. Qed.


Lemma SFmul_finite_zero s m e b :
  is_zero b -> is_zero (SF64mul (S754_finite s m e) b).
Proof. now destruct b. Qed.

(** For a ray with no direction the quadratic of lines 59-62 has A = 0, B
    and the discriminant are zero or NaN, and both roots are 0/0. *)
Lemma sphere_still_roots center R (ray : @Ray float) :
  is_zero (Prim2SF (x (dir ray))) -> is_zero (Prim2SF (y (dir ray))) ->
  is_zero (Prim2SF (z (dir ray))) ->
  zero_or_nan (Prim2SF (sphere_Dscr center R ray))
  /\ Prim2SF (sphere_x1 center R ray) = S754_nan
  /\ Prim2SF (sphere_x2 center R ray) = S754_nan.
Proof.
  intros Hx Hy Hz.
  assert (HA : is_zero (Prim2SF (lengthSqr (dir ray)))).
  { unfold lengthSqr. cbn [add mul binary64].
    rewrite !add_spec, !mul_spec.
    repeat first [apply SFadd_zero | apply SFmul_zero]; assumption. }
  assert (HB : zero_or_nan
                 (Prim2SF (mul (of_int 2)
                               (dot (vsub (start ray) center) (dir ray))))).
  { unfold dot. cbn [add mul binary64]. rewrite !mul_spec, !add_spec, !mul_spec.
    apply SFmul_zero_or_nan_r.
    repeat apply SFadd_zero_or_nan; apply SFmul_zero_or_nan_r;
      apply is_zero_zero_or_nan; assumption. }
  assert (H2A : is_zero (Prim2SF (mul (of_int 2) (lengthSqr (dir ray))))).
  { cbn [mul of_int binary64]. rewrite mul_spec.
    change (Prim2SF (float_of_int 2))
      with (S754_finite false 4503599627370496 (-51)).
    apply SFmul_finite_zero. exact HA. }
  assert (HD : zero_or_nan (Prim2SF (sphere_Dscr center R ray))).
  { unfold sphere_Dscr. cbv zeta.
    set (B := mul (of_int 2) (dot (vsub (start ray) center) (dir ray))) in *.
    set (A := lengthSqr (dir ray)) in *.
    cbn [sub mul of_int binary64]. rewrite sub_spec, !mul_spec.
    apply SFsub_zero_or_nan.
    - apply SFmul_zero_or_nan_l. exact HB.
    - apply SFmul_zero_or_nan_l.
      change (Prim2SF (float_of_int 4))
        with (S754_finite false 4503599627370496 (-50)).
      apply is_zero_zero_or_nan. apply SFmul_finite_zero. exact HA. }
  split; [exact HD|].
  unfold sphere_x1, sphere_x2. cbv zeta.
  set (B := mul (of_int 2) (dot (vsub (start ray) center) (dir ray))) in *.
  set (A2 := mul (of_int 2) (lengthSqr (dir ray))) in *.
  set (D := sphere_Dscr center R ray) in *.
  cbn [add sub div opp sqrt binary64].
  rewrite !div_spec, add_spec, sub_spec, opp_spec, sqrt_spec.
  split; apply SFdiv_zero_by_zero; try exact H2A;
    [apply SFadd_zero_or_nan|apply SFsub_zero_or_nan];
    first [apply SFopp_zero_or_nan; exact HB
          |apply SFsqrt_zero_or_nan; exact HD].
Qed.

(** X21: a ray with no direction (each component +0 or -0) is reported to
    hit every sphere, at a NaN distance: A = 0 makes both roots 0/0, and
    neither test of lines 68-72 rejects a NaN (binary64). *)
Theorem Sphere_hits_still_ray_at_nan :
  forall (LM : Libm float) this center R (ray : @Ray float)
         (info : @IntersectionData float),
    is_zero64 (x (dir ray)) -> is_zero64 (y (dir ray)) ->
    is_zero64 (z (dir ray)) ->
    exists d', Sphere_intersect this center R ray info = (true, d')
               /\ is_nan64 (dist d').
Proof.
  intros LM this center R ray info Hx Hy Hz.
  destruct (@sphere_still_roots center R ray Hx Hy Hz) as (HD & H1 & H2).
  assert (Es : sphere_sol center R ray = Some (sphere_x2 center R ray)).
  { unfold sphere_sol. cbn [ltb of_int binary64].
    rewrite !ltb_zero_spec, (zero_or_nan_not_below _ HD), !H2.
    cbn [below_zero]. rewrite H2. reflexivity. }
  unfold Sphere_intersect. rewrite Es. cbn [ltb binary64].
  rewrite ltb_spec, H2, SFltb_nan_r.
  eexists. split; [reflexivity|]. exact H2.
Qed.


Lemma ord_opp f : ord (SFopp f) = - ord f.
Proof. destruct f as [s|[]| |[] m e]; cbn; lia. Qed.

Lemma ord_abs f : ord (SFabs f) = Z.abs (ord f).
Proof.
  destruct f as [s|[]| |[] m e]; cbn [SFabs ord cond_Zopp]; try reflexivity;
    unfold top; lia.
Qed.

(** Below [c] in magnitude: above [-c] and below [c]. *)
Lemma abs_below_threshold (t c : float) :
  PrimFloat.ltb (PrimFloat.abs t) c = true ->
  PrimFloat.ltb (PrimFloat.opp c) t = true /\ PrimFloat.ltb t c = true.
Proof.
  intros H. apply ltb64_inv in H. destruct H as (Na & Nc & H).
  unfold F2Z in H. rewrite abs_spec, ord_abs in H.
  assert (Nt : is_num t).
  { unfold is_num in *. rewrite abs_spec in Na. now destruct (Prim2SF t). }
  assert (No : is_num (PrimFloat.opp c)).
  { unfold is_num in *. rewrite opp_spec. now destruct (Prim2SF c). }
  split; apply ltb64_true; try assumption; unfold F2Z;
    rewrite ?opp_spec, ?ord_opp; lia.
Qed.

(** X7: a ray whose direction has a y component below 1e-9 in magnitude,
    from an origin above or below the plane, is never reported by
    [Plane::intersect], whether or not it reaches the plane: the guard of
    line 34 returns false and the record is left as given (binary64). *)
Theorem Plane_misses_near_horizontal_ray :
  forall this py (ray : @Ray float) (data : @IntersectionData float),
    PrimFloat.ltb (PrimFloat.abs (y (dir ray))) lit_1e_9 = true ->
    PrimFloat.ltb (y (start ray)) py = true
    \/ PrimFloat.ltb py (y (start ray)) = true ->
    Plane_intersect this py ray data = (false, data).
Proof.
  intros this py ray data Hd Hs.
  apply abs_below_threshold in Hd. destruct Hd as [H1 H2].
  cbn [lit_1e_9 binary64] in *.
  unfold Plane_intersect.
  replace (plane_guard py ray) with true; [reflexivity|].
  symmetry. unfold plane_guard. cbn [ltb opp lit_1e_9 binary64].
  rewrite H1, H2, !andb_true_r.
  destruct Hs as [-> | ->]; [apply orb_true_r|reflexivity].
Qed.


(** The model of [std::sort] keeps at the head a record than which none
    of the list is nearer under the comparison of line 163. *)
Lemma insert_by_dist_head (a : @IntersectionData float) l :
  (forall h0 t, l = h0 :: t ->
                Forall (fun d => PrimFloat.ltb (dist d) (dist h0) = false) l) ->
  forall h0 t, insert_by_dist a l = h0 :: t ->
               Forall (fun d => PrimFloat.ltb (dist d) (dist h0) = false)
                      (insert_by_dist a l).
Proof.
  destruct l as [|b l']; intros Hl h0 t; cbn [insert_by_dist].
  - intros E. injection E as <- <-. constructor; [|constructor].
    destruct (PrimFloat.ltb (dist a) (dist a)) eqn:E; [|reflexivity].
    apply ltb64_inv in E. lia.
  - specialize (Hl b l' eq_refl).
    change (@ltb float binary64) with PrimFloat.ltb.
    destruct (PrimFloat.ltb (dist a) (dist b)) eqn:Eab; intros E;
      injection E as <- <-.
    + constructor.
      * destruct (PrimFloat.ltb (dist a) (dist a)) eqn:E; [|reflexivity].
        apply ltb64_inv in E. lia.
      * eapply Forall_impl; [|exact Hl]. cbn beta. intros d Hd.
        destruct (PrimFloat.ltb (dist d) (dist a)) eqn:E; [|reflexivity].
        rewrite (ltb64_trans E Eab) in Hd. discriminate.
    + inversion Hl as [|? ? Hb Hl']; subst. constructor; [exact Hb|].
      clear Hb Hl. induction l' as [|c l'' IH]; cbn [insert_by_dist].
      * constructor; [exact Eab|constructor].
      * inversion Hl' as [|? ? Hc Hl'']; subst.
        change (@ltb float binary64) with PrimFloat.ltb.
        destruct (PrimFloat.ltb (dist a) (dist c)).
        -- constructor; [exact Eab|]. constructor; assumption.
        -- constructor; [exact Hc|]. apply IH. exact Hl''.
Qed.

Lemma sort_by_dist_head (l : list (@IntersectionData float)) :
  forall h0 t, sort_by_dist l = h0 :: t ->
               Forall (fun d => PrimFloat.ltb (dist d) (dist h0) = false)
                      (sort_by_dist l).
Proof.
  unfold sort_by_dist.
  assert (G : forall acc : list (@IntersectionData float),
             (forall h0 t, acc = h0 :: t ->
                Forall (fun d => PrimFloat.ltb (dist d) (dist h0) = false)
                       acc) ->
             forall h0 t,
               fold_left (fun acc a => insert_by_dist a acc) l acc = h0 :: t ->
               Forall (fun d => PrimFloat.ltb (dist d) (dist h0) = false)
                      (fold_left (fun acc a => insert_by_dist a acc) l acc)).
  { induction l as [|a l IH]; intros acc Hacc; cbn [fold_left].
    - exact Hacc.
    - apply IH. apply insert_by_dist_head. exact Hacc. }
  apply G. intros h0 t E. discriminate.
Qed.

(** X15: a union ([boolOp] = or) whose children were hit a number of
    times of the same parity reports an enumerated hit than which none is
    nearer under the comparison of line 163; it reports none only when no
    hit was enumerated or such a nearest hit lies beyond the distance in
    the record (binary64). *)
Theorem union_reports_a_nearest_enumerated_hit :
  forall (LM : Libm float) fuel this left right ray
         (data d' : @IntersectionData float) Ls Rs (b : bool),
    findAllIntersections (intersect fuel left) fuel ray (float_of_int 0) []
    = Some Ls ->
    findAllIntersections (intersect fuel right) fuel ray (float_of_int 0) []
    = Some Rs ->
    Nat.odd (length Ls) = Nat.odd (length Rs) ->
    intersect fuel (CsgOp this left right orb) ray data = Some (b, d') ->
    if b then
      In d' (Ls ++ Rs)
      /\ forall h, In h (Ls ++ Rs) ->
                   PrimFloat.ltb (dist h) (dist d') = false
    else
      d' = data
      /\ (Ls ++ Rs = []
          \/ exists cur,
               In cur (Ls ++ Rs)
               /\ (forall h, In h (Ls ++ Rs) ->
                             PrimFloat.ltb (dist h) (dist cur) = false)
               /\ PrimFloat.ltb (dist data) (dist cur) = true).
Proof.
  intros LM fuel this left right ray data d' Ls Rs b EL ER Hpar E.
  cbn [intersect] in E. change (@of_int float binary64 0%Z)
    with (float_of_int 0) in E.
  rewrite EL, ER in E. injection E as E.
  unfold CsgOp_sweep, initial_inside in E. rewrite !parity_is_odd, Hpar in E.
  pose proof (@sort_by_dist_head (Ls ++ Rs)) as Hhead.
  pose proof (fun h => @sort_by_dist_In float binary64 h (Ls ++ Rs)) as Hin.
  destruct (sort_by_dist (Ls ++ Rs)) as [|cur rest].
  - cbn [sweep] in E. injection E as <- <-. split; [reflexivity|]. left.
    destruct (Ls ++ Rs) as [|h l]; [reflexivity|].
    exfalso. apply (proj2 (Hin h)). now left.
  - specialize (Hhead cur rest eq_refl). rewrite Forall_forall in Hhead.
    assert (Hmin : forall h, In h (Ls ++ Rs) ->
                             PrimFloat.ltb (dist h) (dist cur) = false).
    { intros h Hh. apply Hhead. apply Hin. exact Hh. }
    assert (Hcur : In cur (Ls ++ Rs)) by (apply Hin; now left).
    cbn [sweep] in E. unfold flip in E.
    assert (Eor : forall a, orb (negb a) a = true /\ orb a (negb a) = true)
      by (intros []; split; reflexivity).
    change (@ltb float binary64) with PrimFloat.ltb in E.
    destruct (N.eqb (g cur) (addr_of left));
      [rewrite (proj1 (Eor _)) in E | rewrite (proj2 (Eor _)) in E];
      destruct (PrimFloat.ltb (dist data) (dist cur)) eqn:Ec;
      injection E as <- <-;
      first [ split; [reflexivity|]; right; exists cur; auto
            | split; assumption ].
Qed.

(** ** The order of the enumerated list *)

(** Halving, iterated. *)
Lemma shr_1_value mrs : 0 <= shr_m mrs -> shr_m (shr_1 mrs) = shr_m mrs / 2.
Proof.
  destruct mrs as [m r s]. cbn [shr_m shr_1].
  destruct m as [|[q|q|]|q]; cbn [shr_m]; intros H;
    try (rewrite <- Z.div2_div; reflexivity).
  exfalso. apply H. reflexivity.
Qed.

Lemma iter_shr_1_value n :
  forall mrs, 0 <= shr_m mrs ->
              0 <= shr_m (SpecFloat.iter_pos shr_1 n mrs)
              /\ shr_m (SpecFloat.iter_pos shr_1 n mrs)
                 = shr_m mrs / 2 ^ Z.pos n.
Proof.
  induction n as [n IH|n IH|]; intros mrs H; cbn [SpecFloat.iter_pos].
  - pose proof (shr_1_nonneg mrs H) as H1.
    destruct (IH _ H1) as [H2 E2]. destruct (IH _ H2) as [H3 E3].
    split; [exact H3|]. rewrite E3, E2, shr_1_value by exact H.
    rewrite !Z.div_div by (try apply Z.pow_pos_nonneg; lia).
    f_equal. rewrite <- Z.pow_add_r, <- Z.pow_succ_r by lia.
    f_equal. lia.
  - destruct (IH _ H) as [H2 E2]. destruct (IH _ H2) as [H3 E3].
    split; [exact H3|]. rewrite E3, E2.
    rewrite !Z.div_div by (try apply Z.pow_pos_nonneg; lia).
    f_equal. rewrite <- Z.pow_add_r by lia.
    f_equal. lia.
  - split; [now apply shr_1_nonneg|]. rewrite shr_1_value by exact H.
    reflexivity.
Qed.

(** Truncation to the format does not take a value below a value of the
    format: if [mc * 2^ec], canonical, is at most [m * 2^e], it is at most
    what [shr_fexp] leaves of [m * 2^e]. *)
Lemma shr_fexp_lower m e l mc ec :
  0 < m -> -1074 <= e ->
  SpecFloat.bounded prec emax mc ec = true ->
  Z.pos mc * 2 ^ (ec + 1074) <= m * 2 ^ (e + 1074) ->
  let r := shr_fexp prec emax m e l in
  0 < shr_m (fst r) /\ -1074 <= snd r
  /\ Z.pos mc * 2 ^ (ec + 1074) <= shr_m (fst r) * 2 ^ (snd r + 1074).
Proof.
  intros Hm He Hc Hle.
  pose proof (bounded_range mc ec Hc) as [Hec Hcv].
  revert Hc. unfold SpecFloat.bounded, canonical_mantissa, fexp, emin, prec, emax.
  rewrite !andb_true_iff, !Z.eqb_eq, !Z.leb_le. intros [Hcan _].
  unfold shr_fexp, fexp, emin, prec, emax, shr.
  destruct m as [|pm|pm]; try lia. cbn [Zdigits2].
  pose proof (digits2_pos_bounds pm) as [Bm1 Bm2].
  pose proof (digits2_pos_bounds mc) as [Bc1 Bc2].
  set (dm := Z.pos (digits2_pos pm)) in *.
  set (dc := Z.pos (digits2_pos mc)) in *.
  destruct (Z.max (dm + e - 53) (3 - 1024 - 53) - e) as [|n|n] eqn:En;
    cbn zeta; cbn [fst snd]; rewrite ?shr_record_of_loc_m;
    try (split; [lia|split; [lia|exact Hle]]).
  assert (Hdc : 0 < dc) by (subst dc; lia).
  clearbody dm dc. clear Hcv.
  assert (Hn : Z.pos n = dm - 53) by (clear - En He; lia).
  assert (Hdm : 53 < dm) by (clear - Hn; lia).
  assert (Hcan' : ec = dc + ec - 53 \/ (ec = -1074 /\ dc <= 53))
    by (clear - Hcan; lia).
  clear En Hcan.
  destruct (@iter_shr_1_value n (shr_record_of_loc (Z.pos pm) l)) as [_ Ev];
    [rewrite shr_record_of_loc_m; lia|].
  rewrite shr_record_of_loc_m in Ev. rewrite Ev. clear Ev.
  assert (P2n : 0 < 2 ^ Z.pos n) by (apply Z.pow_pos_nonneg; lia).
  (* the leading bit survives *)
  assert (Hlead : 2 ^ 52 <= Z.pos pm / 2 ^ Z.pos n).
  { apply Z.div_le_lower_bound; [exact P2n|].
    rewrite <- Z.pow_add_r by lia.
    replace (Z.pos n + 52) with (dm - 1) by lia. exact Bm1. }
  split; [lia|]. split; [lia|].
  replace (e + Z.pos n + 1074) with (Z.pos n + (e + 1074)) by lia.
  rewrite (Z.pow_add_r 2 (Z.pos n) (e + 1074)) by lia.
  assert (Pe : 0 < 2 ^ (e + 1074)) by (apply Z.pow_pos_nonneg; lia).
  (* the magnitudes of the two values *)
  assert (Hmag : dc + ec <= dm + e).
  { destruct (Z.le_gt_cases (dc + ec) (dm + e)) as [H|H]; [exact H|].
    exfalso.
    assert (Z.pos pm * 2 ^ (e + 1074) < Z.pos mc * 2 ^ (ec + 1074)); [|lia].
    apply Z.lt_le_trans with (2 ^ dm * 2 ^ (e + 1074)).
    - apply Z.mul_lt_mono_pos_r; assumption.
    - apply Z.le_trans with (2 ^ (dc - 1) * 2 ^ (ec + 1074)).
      + rewrite <- !Z.pow_add_r by lia. apply Z.pow_le_mono_r; lia.
      + apply Z.mul_le_mono_nonneg_r; [apply Z.pow_nonneg; lia|exact Bc1]. }
  destruct (Z.eq_dec (dc + ec) (dm + e)) as [Heq|Hne].
  - (* the same binade: the exponents agree, and the quotient keeps mc *)
    assert (Hece : ec = e + Z.pos n) by lia.
    assert (Hq : Z.pos mc <= Z.pos pm / 2 ^ Z.pos n).
    { apply Z.div_le_lower_bound; [exact P2n|].
      assert (Z.pos mc * 2 ^ Z.pos n * 2 ^ (e + 1074)
              <= Z.pos pm * 2 ^ (e + 1074)).
      { rewrite <- Z.mul_assoc, <- Z.pow_add_r by lia.
        replace (Z.pos n + (e + 1074)) with (ec + 1074) by lia. exact Hle. }
      apply Z.mul_le_mono_pos_r in H; [lia|exact Pe]. }
    subst ec.
    replace (e + Z.pos n + 1074) with (Z.pos n + (e + 1074)) by lia.
    rewrite (Z.pow_add_r 2 (Z.pos n) (e + 1074)) by lia.
    apply Z.mul_le_mono_nonneg_r; [|exact Hq].
    apply Z.mul_nonneg_nonneg; lia.
  - (* a higher binade: its least value is above every value below *)
    apply Z.le_trans with (2 ^ dc * 2 ^ (ec + 1074)).
    + apply Z.mul_le_mono_nonneg_r; [apply Z.pow_nonneg; lia|lia].
    + apply Z.le_trans with (2 ^ 52 * (2 ^ Z.pos n * 2 ^ (e + 1074))).
      * rewrite <- !Z.pow_add_r by lia. apply Z.pow_le_mono_r; lia.
      * apply Z.mul_le_mono_nonneg_r; [lia|exact Hlead].
Qed.

Lemma round_nearest_even_ge m l : m <= round_nearest_even m l.
Proof.
  unfold round_nearest_even. destruct l as [|[]]; try lia.
  destruct (Z.even m); lia.
Qed.

(** Rounding does not take a value below a value of the format. *)
Lemma binary_round_aux_lower m e l mc ec :
  0 < m -> -1074 <= e ->
  SpecFloat.bounded prec emax mc ec = true ->
  Z.pos mc * 2 ^ (ec + 1074) <= m * 2 ^ (e + 1074) ->
  Z.pos mc * 2 ^ (ec + 1074) <= ord (binary_round_aux prec emax false m e l).
Proof.
  intros Hm He Hc Hle. unfold binary_round_aux.
  pose proof (@shr_fexp_lower m e l mc ec Hm He Hc Hle) as H1.
  destruct (shr_fexp prec emax m e l) as [mrs' e'] eqn:E1.
  cbn [fst snd] in H1. destruct H1 as (M1 & E1' & V1).
  set (m2 := round_nearest_even (shr_m mrs') (loc_of_shr_record mrs')).
  assert (G2 : shr_m mrs' <= m2) by apply round_nearest_even_ge.
  assert (V2 : Z.pos mc * 2 ^ (ec + 1074) <= m2 * 2 ^ (e' + 1074)).
  { eapply Z.le_trans; [exact V1|].
    apply Z.mul_le_mono_nonneg_r; [apply Z.pow_nonneg; lia|exact G2]. }
  pose proof (@shr_fexp_lower m2 e' loc_Exact mc ec ltac:(lia) E1' Hc V2)
    as H2.
  destruct (shr_fexp prec emax m2 e' loc_Exact) as [mrs'' e''] eqn:E2.
  cbn [fst snd] in H2. destruct H2 as (M3 & E3' & V3).
  destruct (shr_m mrs'') as [|p|p]; try lia.
  destruct (e'' <=? emax - prec); cbn [ord cond_Zopp]; [exact V3|].
  pose proof (bounded_range mc ec Hc) as [_ Hcv]. lia.
Qed.

Lemma binary_round_lower mx ex mc ec :
  -1074 <= ex ->
  SpecFloat.bounded prec emax mc ec = true ->
  Z.pos mc * 2 ^ (ec + 1074) <= Z.pos mx * 2 ^ (ex + 1074) ->
  Z.pos mc * 2 ^ (ec + 1074) <= ord (binary_round prec emax false mx ex).
Proof.
  intros He Hc Hle. unfold binary_round.
  set (t := fexp prec emax (Z.pos (digits2_pos mx) + ex)).
  assert (Ht : -1074 <= t) by (unfold t, fexp, emin, prec, emax; lia).
  unfold shl_align. destruct (t - ex) as [|d|d] eqn:Ed.
  - apply binary_round_aux_lower; try assumption; lia.
  - apply binary_round_aux_lower; try assumption; lia.
  - apply binary_round_aux_lower; try assumption; try lia.
    rewrite iter_xO_value. rewrite <- Z.mul_assoc, <- Z.pow_add_r by lia.
    replace (Z.pos d + (t + 1074)) with (ex + 1074) by lia. exact Hle.
Qed.

(** Adding a value that is not below zero to a value that is not below
    zero does not give less. *)
Lemma SFadd_lower a b :
  valid_binary a = true -> valid_binary b = true ->
  below_zero a = false -> below_zero b = false ->
  not_nan (SF64add a b) = true ->
  ord b <= ord (SF64add a b).
Proof.
  intros Va Vb Ha Hb Hn.
  destruct a as [sa|[]| |[] ma ea], b as [sb|[]| |[] mb eb];
    try discriminate; cbn [valid_binary] in Va, Vb;
    try (cbn [ord cond_Zopp]; unfold top; lia);
    try (destruct sa, sb; cbn; lia);
    try (destruct sa; cbn; lia).
  - (* inf + finite *)
    pose proof (bounded_range mb eb Vb) as [_ H].
    change (Z.pos mb * 2 ^ (eb + 1074) <= top). lia.
  - (* finite + 0 *)
    pose proof (bounded_range ma ea Va) as [_ H].
    change (0 <= Z.pos ma * 2 ^ (ea + 1074)). lia.
  - (* finite + finite *)
    pose proof (bounded_range ma ea Va) as [Hea _].
    pose proof (bounded_range mb eb Vb) as [Heb _].
    unfold SF64add, SFadd. cbn [cond_Zopp].
    set (ez := Z.min ea eb).
    rewrite (@shl_align_value ma ea ez) by (unfold ez; lia).
    rewrite (@shl_align_value mb eb ez) by (unfold ez; lia).
    assert (PA : 0 < Z.pos ma * 2 ^ (ea - ez))
      by (apply Z.mul_pos_pos; [lia|apply Z.pow_pos_nonneg; unfold ez; lia]).
    assert (PB : 0 < Z.pos mb * 2 ^ (eb - ez))
      by (apply Z.mul_pos_pos; [lia|apply Z.pow_pos_nonneg; unfold ez; lia]).
    destruct (Z.pos ma * 2 ^ (ea - ez) + Z.pos mb * 2 ^ (eb - ez))
      as [|q|q] eqn:Eq; try lia.
    cbn [binary_normalize ord cond_Zopp].
    apply binary_round_lower; [unfold ez; lia|exact Vb|].
    rewrite <- Eq, Z.mul_add_distr_r.
    assert (EB : Z.pos mb * 2 ^ (eb - ez) * 2 ^ (ez + 1074)
                 = Z.pos mb * 2 ^ (eb + 1074)).
    { rewrite <- Z.mul_assoc, <- Z.pow_add_r by (unfold ez; lia).
      f_equal. f_equal. lia. }
    rewrite EB.
    assert (0 <= Z.pos ma * 2 ^ (ea - ez) * 2 ^ (ez + 1074)); [|lia].
    apply Z.mul_nonneg_nonneg; [lia|apply Z.pow_nonneg; lia].
Qed.

Lemma leb64_inv (a b : float) :
  PrimFloat.leb a b = true -> is_num a /\ is_num b /\ F2Z a <= F2Z b.
Proof.
  intros H.
  assert (N : is_num a /\ is_num b).
  { rewrite leb_spec in H. unfold is_num, SFleb in *.
    destruct (Prim2SF a), (Prim2SF b); cbn in *; try discriminate; auto. }
  destruct N as [Na Nb]. split; [exact Na|]. split; [exact Nb|].
  rewrite leb_spec in H. unfold SFleb, F2Z in *.
  rewrite (@SFcompare_ord _ _ (Prim2SF_valid a) (Prim2SF_valid b) Na Nb) in H.
  destruct (Z.compare_spec (ord (Prim2SF a)) (ord (Prim2SF b)));
    try discriminate; lia.
Qed.

Lemma leb64_trans (a b c : float) :
  PrimFloat.leb a b = true -> PrimFloat.leb b c = true ->
  PrimFloat.leb a c = true.
Proof.
  intros H1 H2. apply leb64_inv in H1, H2.
  destruct H1 as (Na & Nb & H1), H2 as (_ & Nc & H2).
  apply leb64_true; [assumption|assumption|lia].
Qed.

Lemma nan_or_num (a : float) : is_nan64 a \/ is_num a.
Proof.
  unfold is_nan64, is_num. destruct (Prim2SF a); cbn; auto.
Qed.

Lemma add_is_num (a b : float) :
  is_num (PrimFloat.add a b) -> is_num a /\ is_num b.
Proof.
  unfold is_num. rewrite add_spec.
  destruct (Prim2SF a) as [|[]| |], (Prim2SF b) as [|[]| |]; cbn; auto.
Qed.

(** The step of the running length: [temp.dist + currentLength] is NaN, or
    it is at least zero and at least [currentLength]. *)
Lemma add_step64 (t cl : float) :
  PrimFloat.ltb t (float_of_int 0) = false ->
  is_nan64 cl \/ PrimFloat.leb (float_of_int 0) cl = true ->
  is_nan64 (PrimFloat.add t cl)
  \/ (PrimFloat.leb (float_of_int 0) (PrimFloat.add t cl) = true
      /\ PrimFloat.leb cl (PrimFloat.add t cl) = true).
Proof.
  intros Ht Hcl. destruct (nan_or_num (PrimFloat.add t cl)) as [N|N];
    [now left|right].
  destruct (@add_is_num _ _ N) as [Nt Ncl].
  assert (Fcl : PrimFloat.ltb cl (float_of_int 0) = false).
  { destruct Hcl as [E|E]; [|now apply nonneg_is_not_below].
    unfold is_nan64 in E. unfold is_num in Ncl. rewrite E in Ncl.
    discriminate. }
  split.
  - apply not_below_is_nonneg; [exact N|].
    apply (@add_forward64 t cl); assumption.
  - apply leb64_true; [assumption|assumption|].
    unfold F2Z. rewrite add_spec. rewrite ltb_zero_spec in Ht, Fcl.
    apply SFadd_lower; try assumption; try apply Prim2SF_valid.
    unfold is_num in N. now rewrite add_spec in N.
Qed.

Lemma StronglySorted_snoc (A : Type) (R : A -> A -> Prop) (l : list A) x :
  StronglySorted R l -> Forall (fun c => R c x) l ->
  StronglySorted R (l ++ [x]).
Proof.
  induction 1 as [|a l Hl IH Ha]; intros Hx; cbn.
  - constructor; constructor.
  - inversion Hx as [|? ? Hax Hlx]; subst. constructor; [now apply IH|].
    apply Forall_app. split; [exact Ha|]. constructor; [exact Hax|constructor].
Qed.

Lemma findAllIntersections_ascends
    (isect : Ray -> IntersectionData -> option (bool * IntersectionData)) :
  (forall ray d d', isect ray d = Some (true, d') ->
                    PrimFloat.ltb (dist d') (float_of_int 0) = false) ->
  forall fuel ray L,
    findAllIntersections isect fuel ray (float_of_int 0) [] = Some L ->
    Forall dist_nan_or_nonneg L /\ StronglySorted dist_ascends L.
Proof.
  intros Hisect fuel ray L H.
  destruct (@findAllIntersections_invariant float binary64
              (fun cl l =>
                 (is_nan64 cl \/ PrimFloat.leb (float_of_int 0) cl = true)
                 /\ Forall (fun d => is_nan64 cl
                                     \/ PrimFloat.leb (dist d) cl = true) l
                 /\ Forall dist_nan_or_nonneg l
                 /\ StronglySorted dist_ascends l)
              isect)
    with (fuel := fuel) (ray := ray) (cl := float_of_int 0)
         (l := @nil (@IntersectionData float)) (L := L)
    as [cl' (_ & _ & H1 & H2)]; auto.
  - intros ray' cl l temp (Hcl & Hl & Hn & Hs) E. apply Hisect in E.
    cbn [add binary64].
    destruct (@add_step64 _ _ E Hcl) as [N|[P Q]].
    + split; [now left|]. split; [|split].
      * apply Forall_forall. intros d _. now left.
      * apply Forall_app. split; [exact Hn|].
        constructor; [|constructor]. left. exact N.
      * apply StronglySorted_snoc; [exact Hs|].
        apply Forall_forall. intros d _. left. exact N.
    + assert (Hl' : Forall (fun d => PrimFloat.leb (dist d)
                                       (PrimFloat.add (dist temp) cl) = true)
                      l).
      { eapply Forall_impl; [|exact Hl]. cbn beta. intros d [Nd|Ld].
        - apply leb64_inv in Q. destruct Q as (Ncl & _).
          unfold is_nan64 in Nd. unfold is_num in Ncl. rewrite Nd in Ncl.
          discriminate.
        - eapply leb64_trans; eassumption. }
      assert (Nx : is_num (PrimFloat.add (dist temp) cl))
        by (apply leb64_inv in P; tauto).
      split; [now right|]. split; [|split].
      * apply Forall_app. split.
        -- eapply Forall_impl; [|exact Hl']. cbn beta. intros d Hd.
           right. exact Hd.
        -- constructor; [|constructor]. right. cbn [set_dist dist].
           apply leb64_true; [assumption|assumption|apply Z.le_refl].
      * apply Forall_app. split; [exact Hn|].
        constructor; [|constructor]. right. exact P.
      * apply StronglySorted_snoc; [exact Hs|].
        eapply Forall_impl; [|exact Hl']. cbn beta. intros d Hd.
        right. exact Hd.
  - split; [right; reflexivity|]. repeat split; constructor.
Qed.

(** X13: the list [CsgOp::findAllIntersections] builds from a geometry of
    this file is in ascending order of [dist], in binary64: the [dist] of
    a record is NaN, or it is at least zero and at least the [dist] of
    every record before it (so that after a NaN every [dist] is NaN). *)
Theorem findAllIntersections_dists_ascend :
  forall (LM : Libm float) (fuel n : nat) (geom : Geometry)
         (ray : @Ray float) (L : list (@IntersectionData float)),
    findAllIntersections (@intersect float binary64 LM fuel geom) n ray
      (float_of_int 0) [] = Some L ->
    Forall dist_nan_or_nonneg L /\ StronglySorted dist_ascends L.
Proof.
  intros LM fuel n geom ray L H.
  eapply findAllIntersections_ascends; [|exact H].
  intros ray' d d' E. eapply intersect_forward64. exact E.
Qed.

End Binary64More.

(** ** Runs of the statements above *)

Section RunsMore.
Import SceneR.
Local Open Scope R_scope.

Lemma ceiling_plane_run :
  exists d, Plane_intersect 1%N 0 upward_ray (record_at 1e99) = (true, d).
Proof. eexists. Reval. reflexivity. Qed.

Lemma ceiling_enumeration :
  exists d,
    findAllIntersections (intersect 2 ceiling) 2 upward_ray 0 [] = Some [d].
Proof. eexists. Reval. reflexivity. Qed.

Lemma upper_enumeration :
  exists d,
    findAllIntersections (intersect 2 (Plane 5%N 1)) 2 upward_ray 0 []
    = Some [d].
Proof. eexists. Reval. reflexivity. Qed.

Lemma primitive_hit_is_on_ray_at_dist_witness :
  (exists d,
      Plane_intersect 1%N 0 upward_ray (record_at 1e99) = (true, d)
      /\ p d = ray_at upward_ray (dist d) /\ g d = 1%N)
  /\ (exists d,
         Sphere_intersect 7%N unit_center 1 upward_ray (record_at 1e99)
         = (true, d)
         /\ p d = ray_at upward_ray (dist d) /\ g d = 7%N)
  /\ (exists d,
         Cube_intersect 8%N unit_center 2 upward_ray (record_at 1e99)
         = (true, d)
         /\ p d = ray_at upward_ray (dist d) /\ g d = 8%N).
Proof.
  split; [|split].
  - destruct ceiling_plane_run as (d & E). exists d. split; [exact E|].
    exact (proj1 (@primitive_hit_is_on_ray_at_dist R exact exact_libm)
                 _ _ _ _ _ E).
  - destruct unit_sphere_run as (d & E). exists d. split; [exact E|].
    exact (proj1 (proj2 (@primitive_hit_is_on_ray_at_dist R exact exact_libm))
                 _ _ _ _ _ _ E).
  - destruct unit_cube_run as (d & E). exists d. split; [exact E|].
    exact (proj2 (proj2 (@primitive_hit_is_on_ray_at_dist R exact exact_libm))
                 _ _ _ _ _ _ E).
Defined.

Lemma Cube_hit_normal_and_offsets_witness :
  exists d,
    Cube_intersect 8%N unit_center 2 upward_ray (record_at 1e99) = (true, d)
    /\ exists ax sd,
         is_side sd /\ normal d = axis_vector ax sd
         /\ (u d, v d) = face_offsets ax unit_center (p d).
Proof.
  destruct unit_cube_run as (d & E). exists d. split; [exact E|].
  exact (@Cube_hit_normal_and_offsets R exact _ _ _ _ _ _ E).
Defined.

Lemma Cube_misses_degenerate_direction_witness :
  Cube_intersect 3%N (Scene64.vec64 0 0 0) (float_of_int 2) Scene64.still_ray
                 probe
  = (false, probe).
Proof.
  apply (@Cube_misses_degenerate_direction float binary64);
    vm_compute; reflexivity.
Defined.

Lemma nested_left_child_flag_never_flips_witness :
  exists inR, andb (Nat.odd (length [Scene64.hitA])) inR = true.
Proof.
  apply (@nested_left_child_flag_never_flips float binary64
           Scene64.libm_unused 4 1%N Scene64.unionAB Scene64.cubeC andb
           Scene64.view_ray probe Scene64.hitA [Scene64.hitA]).
  - cbn. intuition discriminate.
  - vm_compute. reflexivity.
  - vm_compute. reflexivity.
Defined.

Lemma Plane_enumeration_never_ends_witness :
  findAllIntersections
    (@intersect float binary64 Scene64.libm_unused 0 Scene64.ground) 5
    Scene64.grazing_ray (float_of_int 0) []
  = None
  /\ @intersect float binary64 Scene64.libm_unused 3
       (CsgOp 9%N Scene64.ground Scene64.cubeA orb) Scene64.grazing_ray probe
     = None.
Proof.
  assert (Hg : grazes64 (float_of_int 0) Scene64.grazing_ray).
  { right. vm_compute. repeat split; reflexivity. }
  split.
  - exact (proj1 (@Plane_enumeration_never_ends Scene64.libm_unused 1%N
                    (float_of_int 0) Scene64.grazing_ray Hg)
                 0%nat 5%nat (float_of_int 0) []).
  - exact (proj1 (proj2 (@Plane_enumeration_never_ends Scene64.libm_unused 1%N
                           (float_of_int 0) Scene64.grazing_ray Hg)
                        3%nat 9%N Scene64.cubeA orb probe)).
Defined.

Lemma Plane_dist_is_nan_only_when_grazing_witness :
  exists d,
    Plane_intersect 1%N (float_of_int 0) Scene64.downward_ray probe
    = (true, d)
    /\ is_num (dist d).
Proof.
  eexists. split; [vm_compute; reflexivity|].
  refine (proj2 (@Plane_dist_is_nan_only_when_grazing 1%N (float_of_int 0)
                   Scene64.downward_ray probe _ _ _ _ _) _).
  - vm_compute. reflexivity.
  - vm_compute. reflexivity.
  - vm_compute. reflexivity.
  - vm_compute. reflexivity.
  - intros [H|(_ & H & _)]; vm_compute in H; discriminate.
Defined.

Lemma Cube_dist_stays_a_number_witness :
  is_num (dist (snd (Cube_intersect 3%N (Scene64.vec64 0 0 0) (float_of_int 2)
                                    Scene64.view_ray probe))).
Proof.
  apply Cube_dist_stays_a_number; vm_compute; repeat split.
Defined.

Lemma primitive_left_child_sweep_counts_crossings_witness :
  exists d dl dr,
    findAllIntersections (intersect 2 ceiling) 2 upward_ray 0 [] = Some [dl]
    /\ findAllIntersections (intersect 2 (Plane 5%N 1)) 2 upward_ray 0 []
       = Some [dr]
    /\ intersect 2 ceilings upward_ray (record_at 1e99) = Some (true, d)
    /\ exists pre post,
         sort_by_dist ([dl] ++ [dr]) = pre ++ d :: post
         /\ orb (Nat.odd (left_hits ceiling post))
                (Nat.odd (right_hits ceiling post)) = true.
Proof.
  destruct ceilings_run as (d & E).
  destruct ceiling_enumeration as (dl & EL).
  destruct upper_enumeration as (dr & ER).
  exists d, dl, dr. split; [exact EL|]. split; [exact ER|]. split; [exact E|].
  destruct (@primitive_left_child_sweep_counts_crossings R exact exact_libm
              2%nat 4%N ceiling (Plane 5%N 1) orb upward_ray (record_at 1e99)
              d [dl] [dr] I) with (2 := EL) (3 := ER) (4 := E)
    as (_ & _ & pre & post & H1 & H2 & _).
  - cbn. intuition discriminate.
  - exists pre, post. split; assumption.
Defined.

Lemma Sphere_hits_still_ray_at_nan_witness :
  exists d,
    @Sphere_intersect float binary64 Scene64.libm_unused 7%N
      (Scene64.vec64 0 0 0) (float_of_int 1) Scene64.still_ray probe
    = (true, d)
    /\ is_nan64 (dist d).
Proof.
  apply (@Sphere_hits_still_ray_at_nan Scene64.libm_unused 7%N
           (Scene64.vec64 0 0 0) (float_of_int 1) Scene64.still_ray probe);
    vm_compute; exact I.
Defined.

Lemma Plane_misses_near_horizontal_ray_witness :
  Plane_intersect 1%N (float_of_int 0) Scene64.level_ray probe
  = (false, probe).
Proof.
  apply Plane_misses_near_horizontal_ray.
  - vm_compute. reflexivity.
  - right. vm_compute. reflexivity.
Defined.

Lemma union_reports_a_nearest_enumerated_hit_witness :
  findAllIntersections
    (@intersect float binary64 Scene64.libm_unused 4 Scene64.cubeA) 4
    Scene64.view_ray (float_of_int 0) []
  = Some Scene64.hitsA
  /\ length Scene64.hitsA = 2%nat
  /\ @intersect float binary64 Scene64.libm_unused 4 Scene64.unionAB
       Scene64.view_ray probe
     = Some (true, Scene64.hitA)
  /\ In Scene64.hitA (Scene64.hitsA ++ [])
  /\ forall h, In h (Scene64.hitsA ++ []) ->
               PrimFloat.ltb (dist h) (dist Scene64.hitA) = false.
Proof.
  assert (EL : findAllIntersections
                 (@intersect float binary64 Scene64.libm_unused 4
                    Scene64.cubeA) 4 Scene64.view_ray (float_of_int 0) []
               = Some Scene64.hitsA) by (vm_compute; reflexivity).
  assert (ER : findAllIntersections
                 (@intersect float binary64 Scene64.libm_unused 4
                    Scene64.cubeB) 4 Scene64.view_ray (float_of_int 0) []
               = Some []) by (vm_compute; reflexivity).
  assert (E : @intersect float binary64 Scene64.libm_unused 4 Scene64.unionAB
                Scene64.view_ray probe
              = Some (true, Scene64.hitA)) by (vm_compute; reflexivity).
  split; [exact EL|]. split; [reflexivity|]. split; [exact E|].
  exact (@union_reports_a_nearest_enumerated_hit Scene64.libm_unused 4%nat
           2%N Scene64.cubeA Scene64.cubeB Scene64.view_ray probe
           Scene64.hitA Scene64.hitsA [] true EL ER eq_refl E).
Defined.

Lemma findAllIntersections_dists_ascend_witness :
  findAllIntersections
    (@intersect float binary64 Scene64.libm_unused 0 Scene64.cubeA) 4
    Scene64.view_ray (float_of_int 0) []
  = Some Scene64.hitsA
  /\ length Scene64.hitsA = 2%nat
  /\ Forall dist_nan_or_nonneg Scene64.hitsA
  /\ StronglySorted dist_ascends Scene64.hitsA.
Proof.
  assert (EL : findAllIntersections
                 (@intersect float binary64 Scene64.libm_unused 0
                    Scene64.cubeA) 4 Scene64.view_ray (float_of_int 0) []
               = Some Scene64.hitsA) by (vm_compute; reflexivity).
  split; [exact EL|]. split; [reflexivity|].
  exact (@findAllIntersections_dists_ascend Scene64.libm_unused 0%nat 4%nat
           Scene64.cubeA Scene64.view_ray Scene64.hitsA EL).
Defined.

End RunsMore.
